(** * Segment audio playback: decoder, playback engine, cache and sequencer

    A shallow embedding of the playback core of the reading assistant
    (the [App] component and its helpers): the base64 / PCM decoder, the
    single active [AudioBufferSourceNode], the audio cache kept in React
    state, and the handlers that sequence playback over the segment list.

    Modelling conventions.
    - One step of the model is one browser task: a user event, the
      settlement of an external promise, or the [ended] event of a source
      node, together with the microtasks it triggers.
    - React state is read through the closure of the render in which a
      handler was created and written through the setters; a handler that
      resumes after an [await], or an [onended] callback, still reads the
      values of its own render ([Render]).
    - Samples are exact rationals: a 16-bit integer divided by 2^15 is
      representable without rounding in a Float32Array.
    - A string is held as the bytes of its UTF-8 encoding, the way a
      string literal is read here; the binary string that [atob] returns
      is held with one byte per char code.
    - The audio cache is a plain object: a key it does not own is looked
      up in [Object.prototype] ([objectPrototype]). *)

From Stdlib Require Import ZArith QArith Qabs Ascii String Strings.Byte.
From stdpp Require Import base option list gmap strings.

Local Open Scope Z_scope.

(** ** types.ts *)

Module TextSegment.
Record t : Type := mk { id : string; original : string; translation : string }.
End TextSegment.

Inductive PlaybackState : Type := IDLE | LOADING_AUDIO | PLAYING.

#[global] Instance PlaybackState_eq_dec : EqDecision PlaybackState.
Proof. solve_decision. Defined.

(** ** Audio decoder *)

Module Decoder.

(** [window.atob]: the forgiving-base64 decode of the platform.  [None]
  stands for the InvalidCharacterError it throws. *)

Definition isAsciiWhitespace (c : ascii) : bool :=
let n := N_of_ascii c in
(N.eqb n 9 || N.eqb n 10 || N.eqb n 12 || N.eqb n 13 || N.eqb n 32)%bool.

Definition base64Value (c : ascii) : option N :=
let n := N_of_ascii c in
if (N.leb 65 n && N.leb n 90)%bool then Some (n - 65)%N
else if (N.leb 97 n && N.leb n 122)%bool then Some (n - 71)%N
else if (N.leb 48 n && N.leb n 57)%bool then Some (n + 4)%N
else if N.eqb n 43 then Some 62%N
else if N.eqb n 47 then Some 63%N
else None.

Definition isEquals (c : ascii) : bool := N.eqb (N_of_ascii c) 61.

Definition stripPadding (cs : list ascii) : list ascii :=
if (length cs mod 4 =? 0)%nat then
  match rev cs with
  | a :: b :: r =>
      if isEquals a then (if isEquals b then rev r else rev (b :: r)) else cs
  | [a] => if isEquals a then [] else cs
  | [] => cs
  end
else cs.

Fixpoint sextets (cs : list ascii) : option (list N) :=
match cs with
| [] => Some []
| c :: r =>
    match base64Value c, sextets r with
    | Some v, Some vs => Some (v :: vs)
    | _, _ => None
    end
end.

Definition charOf (n : N) : ascii := ascii_of_N (N.land n 255).

Fixpoint decodeSextets (fuel : nat) (vs : list N) : list ascii :=
match fuel with
| O => []
| S f =>
    match vs with
    | a :: b :: c :: d :: r =>
        let n := N.lor (N.lor (N.shiftl a 18) (N.shiftl b 12)) (N.lor (N.shiftl c 6) d) in
        charOf (N.shiftr n 16) :: charOf (N.shiftr n 8) :: charOf n :: decodeSextets f r
    | [a; b; c] =>
        let n := N.shiftr (N.lor (N.lor (N.shiftl a 12) (N.shiftl b 6)) c) 2 in
        [charOf (N.shiftr n 8); charOf n]
    | [a; b] => [charOf (N.shiftr (N.lor (N.shiftl a 6) b) 4)]
    | _ => []
    end
end.

Definition atob (base64 : string) : option string :=
let cs := stripPadding (filter (fun c => negb (isAsciiWhitespace c)) (list_ascii_of_string base64)) in
if (length cs mod 4 =? 1)%nat then None
else vs ← sextets cs; Some (string_of_list_ascii (decodeSextets (length vs) vs)).

(** [decodeBase64]: one byte per char code of the binary string. *)
Definition decodeBase64 (base64 : string) : option (list byte) :=
binaryString ← atob base64; Some (list_byte_of_string binaryString).

(** A [Uint8Array] pair viewed through [Int16Array] (little-endian). *)
Definition int16 (lo hi : byte) : Z :=
let u := Z.of_N (Byte.to_N lo) + 256 * Z.of_N (Byte.to_N hi) in
if u <? 32768 then u else u - 65536.

Fixpoint int16Array (data : list byte) : list Z :=
match data with
| lo :: hi :: r => int16 lo hi :: int16Array r
| _ => []
end.

(** [decodeAudioData].  [new Int16Array(data.buffer)] throws a RangeError
  when the byte length is odd, and [ctx.createBuffer(1, 0, 24000)]
  throws NotSupportedError for a frame count of zero; [None] stands for
  either exception. *)
Definition decodeAudioData (data : list byte) : option (list Q) :=
if negb (Nat.even (length data)) then None
else
  let dataInt16 := int16Array data in
  let frameCount := length dataInt16 in
  if (frameCount =? 0)%nat then None
  else Some (map (fun v => inject_Z v / 32768)%Q dataInt16).

(** The [try] block of [playPcmData] up to the buffer. *)
Definition decodePcm (base64Data : string) : option (list Q) :=
bytes ← decodeBase64 base64Data; decodeAudioData bytes.

End Decoder.

(** ** The component state *)

(** The values a handler reads through its closure: the consts of the
    render in which it was created. *)
Record Render : Type := mkRender {
  r_segments : list TextSegment.t;
  r_audioCache : gmap string string;
  r_selectedVoice : string
}.

(** The arrow function that [playSegment] hands to [playPcmData] as
    [onEnded]: it closes over the segment, the chain flag and, through
    [playNextSegment], over the render of that [playSegment]. *)
Record OnEnded : Type := mkOnEnded {
  cb_render : Render;
  cb_segment : TextSegment.t;
  cb_autoPlayNext : bool
}.

(** An [AudioBufferSourceNode].  [Started]: [start()] was called and the
    buffer is rendering; [Stopped]: [stop()] was called; [Ended]: its
    [ended] event has been dispatched. *)
Inductive SourceStatus : Type := Started | Stopped | Ended.

#[global] Instance SourceStatus_eq_dec : EqDecision SourceStatus.
Proof. solve_decision. Defined.

Record SourceNode : Type := mkSource {
  buffer : list Q;
  onended : option OnEnded;
  status : SourceStatus
}.

(** A call of [generateSpeech] made by [playSegment], with the rest of
    that [playSegment] as its continuation. *)
Record SpeechCall : Type := mkCall {
  c_text : string;
  c_voiceName : string;
  c_resume : OnEnded;
  c_pending : bool
}.

Record State : Type := mkState {
  inputText : string;
  segments : list TextSegment.t;
  isProcessing : bool;
  playbackState : PlaybackState;
  playingSegmentId : option string;
  selectedVoice : string;
  audioCache : gmap string string;
  activeSourceRef : option nat;
  (** every source node created so far; a handle is an index *)
  sources : list SourceNode;
  (** every [generateSpeech] call made so far, in order *)
  speechCalls : list SpeechCall;
  (** [analyzeText] calls still awaited by [handleProcess] *)
  analysesPending : nat
}.

Definition setInputText (v : string) (st : State) : State :=
  mkState v (segments st) (isProcessing st) (playbackState st) (playingSegmentId st)
    (selectedVoice st) (audioCache st) (activeSourceRef st) (sources st) (speechCalls st)
    (analysesPending st).
Definition setSegments (v : list TextSegment.t) (st : State) : State :=
  mkState (inputText st) v (isProcessing st) (playbackState st) (playingSegmentId st)
    (selectedVoice st) (audioCache st) (activeSourceRef st) (sources st) (speechCalls st)
    (analysesPending st).
Definition setIsProcessing (v : bool) (st : State) : State :=
  mkState (inputText st) (segments st) v (playbackState st) (playingSegmentId st)
    (selectedVoice st) (audioCache st) (activeSourceRef st) (sources st) (speechCalls st)
    (analysesPending st).
Definition setPlaybackState (v : PlaybackState) (st : State) : State :=
  mkState (inputText st) (segments st) (isProcessing st) v (playingSegmentId st)
    (selectedVoice st) (audioCache st) (activeSourceRef st) (sources st) (speechCalls st)
    (analysesPending st).
Definition setPlayingSegmentId (v : option string) (st : State) : State :=
  mkState (inputText st) (segments st) (isProcessing st) (playbackState st) v
    (selectedVoice st) (audioCache st) (activeSourceRef st) (sources st) (speechCalls st)
    (analysesPending st).
Definition setSelectedVoice (v : string) (st : State) : State :=
  mkState (inputText st) (segments st) (isProcessing st) (playbackState st) (playingSegmentId st)
    v (audioCache st) (activeSourceRef st) (sources st) (speechCalls st)
    (analysesPending st).
Definition setAudioCache (v : gmap string string) (st : State) : State :=
  mkState (inputText st) (segments st) (isProcessing st) (playbackState st) (playingSegmentId st)
    (selectedVoice st) v (activeSourceRef st) (sources st) (speechCalls st)
    (analysesPending st).
Definition setActiveSourceRef (v : option nat) (st : State) : State :=
  mkState (inputText st) (segments st) (isProcessing st) (playbackState st) (playingSegmentId st)
    (selectedVoice st) (audioCache st) v (sources st) (speechCalls st)
    (analysesPending st).
Definition setSources (v : list SourceNode) (st : State) : State :=
  mkState (inputText st) (segments st) (isProcessing st) (playbackState st) (playingSegmentId st)
    (selectedVoice st) (audioCache st) (activeSourceRef st) v (speechCalls st)
    (analysesPending st).
Definition setSpeechCalls (v : list SpeechCall) (st : State) : State :=
  mkState (inputText st) (segments st) (isProcessing st) (playbackState st) (playingSegmentId st)
    (selectedVoice st) (audioCache st) (activeSourceRef st) (sources st) v
    (analysesPending st).
Definition setAnalysesPending (v : nat) (st : State) : State :=
  mkState (inputText st) (segments st) (isProcessing st) (playbackState st) (playingSegmentId st)
    (selectedVoice st) (audioCache st) (activeSourceRef st) (sources st) (speechCalls st) v.

(** The render a user event sees: the current state. *)
Definition render (st : State) : Render :=
  mkRender (segments st) (audioCache st) (selectedVoice st).

(** The state of the first render: [useState] initial values, no node,
    no call. *)
Definition initialState : State :=
  mkState "" [] false IDLE None "Kore" ∅ None [] [] 0.

(** ** Playback engine *)

(** [node.onended = null; node.stop()] inside [try]. *)
Definition stopNode (n : SourceNode) : SourceNode :=
  mkSource (buffer n) None (match status n with Started => Stopped | s => s end).

Definition stopActive (st : State) : State :=
  match activeSourceRef st with
  | Some h => setSources (alter stopNode h (sources st)) st
  | None => st
  end.

Definition toIdle (st : State) : State :=
  setPlaybackState IDLE (setPlayingSegmentId None st).

Definition stopPlayback (st : State) : State :=
  toIdle (match activeSourceRef st with
          | Some _ => setActiveSourceRef None (stopActive st)
          | None => st
          end).

(** [playPcmData]: [onEnded] is the callback as a state transformer (run
    by the [catch]); [cb] is the same callback as data, installed in the
    handler of the new node. *)
Definition playPcmData (base64Data : string) (cb : OnEnded)
    (onEnded : State -> option State) (st : State) : option State :=
  let st1 := stopActive st in
  match Decoder.decodePcm base64Data with
  | Some buf =>
      Some (setActiveSourceRef (Some (length (sources st1)))
              (setSources (sources st1 ++ [mkSource buf (Some cb) Started]) st1))
  | None => onEnded st1
  end.

(** ** Sequencer *)

(** The text of a built-in function, as [Function.prototype.toString]
    gives it (in the layout of V8; every engine prints the parentheses,
    braces and brackets of the NativeFunction syntax). *)
Definition nativeFunction (name : string) : string :=
  "function " +:+ name +:+ "() { [native code] }".

(** The properties a plain object inherits from [Object.prototype].  The
    only use [playSegment] makes of a value read from the cache is to
    test it for truthiness and to hand it to [playPcmData], where
    [window.atob] converts it to a string: an inherited value is kept as
    that string, the text of the function for a method, and
    "[object Object]" for the prototype object that [__proto__] returns.
    All of them are truthy. *)
Definition objectPrototype (key : string) : option string :=
  if decide (key = "__proto__") then Some "[object Object]"
  else if decide (key = "constructor") then Some (nativeFunction "Object")
  else if bool_decide (key ∈ ["__defineGetter__"; "__defineSetter__"; "__lookupGetter__";
                              "__lookupSetter__"; "hasOwnProperty"; "isPrototypeOf";
                              "propertyIsEnumerable"; "toLocaleString"; "toString"; "valueOf"])
  then Some (nativeFunction key)
  else None.

(** [audioCache[id]] followed by the test [!pcmBase64].  An entry of the
    cache itself shadows the prototype, and the empty string counts as a
    miss; a key the cache does not own is read from [Object.prototype],
    and is a miss only when it is not there either. *)
Definition cached (cache : gmap string string) (key : string) : option string :=
  match cache !! key with
  | Some pcm => if decide (pcm = "") then None else Some pcm
  | None => objectPrototype key
  end.

(** [segments.findIndex(s => s.id === currentId)]; [None] is -1. *)
Fixpoint findIndex (currentId : string) (l : list TextSegment.t) : option nat :=
  match l with
  | [] => None
  | s :: r => if decide (TextSegment.id s = currentId) then Some O
              else S <$> findIndex currentId r
  end.

(** [playNextSegment], over the [playSegment] of the same render. *)
Definition playNextSegment (playSegment : TextSegment.t -> State -> option State)
    (r : Render) (currentId : string) (st : State) : option State :=
  match findIndex currentId (r_segments r) with
  | Some currentIndex =>
      match r_segments r !! S currentIndex with
      | Some nextSegment => playSegment nextSegment st
      | None => Some (toIdle st)
      end
  | None => Some (toIdle st)
  end.

(** The callback's body. *)
Definition runOnEnded (playSegment : Render -> TextSegment.t -> bool -> State -> option State)
    (cb : OnEnded) (st : State) : option State :=
  if cb_autoPlayNext cb
  then playNextSegment (fun s => playSegment (cb_render cb) s true) (cb_render cb)
         (TextSegment.id (cb_segment cb)) st
  else Some (toIdle st).

(** [playSegment] from [setPlaybackState(PlaybackState.PLAYING)] on. *)
Definition startPlaying (playSegment : Render -> TextSegment.t -> bool -> State -> option State)
    (cb : OnEnded) (pcmBase64 : string) (st : State) : option State :=
  playPcmData pcmBase64 cb (runOnEnded playSegment cb) (setPlaybackState PLAYING st).

(** [playSegment].  A failed decode runs the callback inside the same
    task, which in a chain calls [playSegment] again: [fuel] bounds the
    number of such calls, and [None] means the bound was reached. *)
Fixpoint playSegment (fuel : nat) (r : Render) (segment : TextSegment.t)
    (autoPlayNext : bool) (st : State) : option State :=
  match fuel with
  | O => None
  | S fuel' =>
      let st1 := setPlayingSegmentId (Some (TextSegment.id segment)) st in
      match cached (r_audioCache r) (TextSegment.id segment) with
      | Some pcmBase64 =>
          startPlaying (playSegment fuel') (mkOnEnded r segment autoPlayNext) pcmBase64 st1
      | None =>
          let st2 := setPlaybackState LOADING_AUDIO st1 in
          Some (setSpeechCalls
                  (speechCalls st2 ++
                     [mkCall (TextSegment.original segment) (r_selectedVoice r)
                        (mkOnEnded r segment autoPlayNext) true]) st2)
      end
  end.

(** ** Events and the step function *)

(** The code points of a UTF-8 byte sequence.  A byte that does not
    start a well-formed sequence in shortest form gives U+FFFD. *)
Definition isContinuation (b : N) : bool := (N.leb 0x80 b && N.ltb b 0xC0)%bool.

Fixpoint codePoints (bs : list N) : list N :=
  match bs with
  | [] => []
  | b :: r =>
      if N.ltb b 0x80 then b :: codePoints r
      else
        match r with
        | c1 :: r1 =>
            if (N.leb 0xC2 b && N.ltb b 0xE0 && isContinuation c1)%bool
            then ((b - 0xC0) * 64 + (c1 - 0x80))%N :: codePoints r1
            else
              match r1 with
              | c2 :: r2 =>
                  if (N.leb 0xE0 b && N.ltb b 0xF0 && isContinuation c1 && isContinuation c2)%bool
                  then (let cp := ((b - 0xE0) * 4096 + (c1 - 0x80) * 64 + (c2 - 0x80))%N in
                        if N.leb 0x800 cp then cp else 0xFFFD%N) :: codePoints r2
                  else
                    match r2 with
                    | c3 :: r3 =>
                        if (N.leb 0xF0 b && N.ltb b 0xF5 && isContinuation c1
                            && isContinuation c2 && isContinuation c3)%bool
                        then (let cp := ((b - 0xF0) * 262144 + (c1 - 0x80) * 4096
                                         + (c2 - 0x80) * 64 + (c3 - 0x80))%N in
                              if (N.leb 0x10000 cp && N.leb cp 0x10FFFF)%bool
                              then cp else 0xFFFD%N) :: codePoints r3
                        else 0xFFFD%N :: codePoints r
                    | [] => 0xFFFD%N :: codePoints r
                    end
              | [] => 0xFFFD%N :: codePoints r
              end
        | [] => [0xFFFD%N]
        end
  end.

(** The UTF-8 bytes of a code point. *)
Definition utf8 (cp : N) : list N :=
  if N.ltb cp 0x80 then [cp]
  else if N.ltb cp 0x800 then [0xC0 + cp / 64; 0x80 + cp mod 64]%N
  else if N.ltb cp 0x10000
       then [0xE0 + cp / 4096; 0x80 + (cp / 64) mod 64; 0x80 + cp mod 64]%N
       else [0xF0 + cp / 262144; 0x80 + (cp / 4096) mod 64; 0x80 + (cp / 64) mod 64;
             0x80 + cp mod 64]%N.

(** The code points [String.prototype.trim] strips, WhiteSpace and
    LineTerminator: TAB, LF, VT, FF, CR, the space separators (U+0020,
    U+00A0, U+1680, U+2000 to U+200A, U+202F, U+205F, U+3000), the line
    and paragraph separators U+2028 and U+2029, and U+FEFF. *)
Definition isWhiteSpace (cp : N) : bool :=
  (N.leb 0x9 cp && N.leb cp 0xD
   || N.eqb cp 0x20 || N.eqb cp 0xA0 || N.eqb cp 0x1680
   || N.leb 0x2000 cp && N.leb cp 0x200A
   || N.eqb cp 0x2028 || N.eqb cp 0x2029 || N.eqb cp 0x202F || N.eqb cp 0x205F
   || N.eqb cp 0x3000 || N.eqb cp 0xFEFF)%bool.

(** The string made of the given code points. *)
Definition text (cps : list N) : string :=
  string_of_list_ascii (ascii_of_N <$> concat (utf8 <$> cps)).

(** [!inputText.trim()]: nothing is left of the text when all of its
    code points are stripped.  The text is read as UTF-8: the text of
    one U+00A0 is [text [0xA0]], the bytes C2 A0. *)
Definition trimIsEmpty (s : string) : bool :=
  forallb isWhiteSpace (codePoints (N_of_ascii <$> list_ascii_of_string s)).

Inductive Event : Type :=
  | SetInputText (text : string)                 (* textarea onChange *)
  | ClickProcess                                  (* handleProcess *)
  | AnalysisSettled (result : option (list TextSegment.t))
                                                  (* analyzeText resolved / rejected *)
  | ClickClear                                    (* handleClear *)
  | ClickPlayPause (segment : TextSegment.t)      (* handlePlayPause *)
  | ClickPlayAll                                  (* handlePlayAll *)
  | ClickStop                                     (* stopPlayback *)
  | SelectVoice (voice : string)                  (* setSelectedVoice + its effect *)
  | SpeechSettled (call : nat) (audioData : option string)
                                                  (* the response of generateSpeech *)
  | SourceEnded (handle : nat).                   (* the [ended] event of a node *)

Definition handleProcess (st : State) : State :=
  if trimIsEmpty (inputText st) then st
  else
    setAnalysesPending (S (analysesPending st))
      (setAudioCache ∅ (setSegments [] (setIsProcessing true (stopPlayback st)))).

Definition analysisSettled (result : option (list TextSegment.t)) (st : State) : State :=
  match analysesPending st with
  | O => st
  | S n =>
      let st1 := setAnalysesPending n st in
      setIsProcessing false
        (match result with
         | Some segs => setSegments segs st1
         | None => st1
         end)
  end.

Definition handleClear (st : State) : State :=
  setAudioCache ∅ (setSegments [] (setInputText "" (stopPlayback st))).

Definition handlePlayPause (fuel : nat) (segment : TextSegment.t) (st : State) : option State :=
  if decide (playingSegmentId st = Some (TextSegment.id segment) ∧ playbackState st = PLAYING)
  then Some (stopPlayback st)
  else playSegment fuel (render st) segment false st.

Definition handlePlayAll (fuel : nat) (st : State) : option State :=
  match segments st with
  | first :: _ => playSegment fuel (render st) first true st
  | [] => Some st
  end.

(** [setSelectedVoice(v)] and, when the value changed, the effect on
    [selectedVoice]: [setAudioCache({}); stopPlayback()]. *)
Definition selectVoice (voice : string) (st : State) : State :=
  if decide (voice = selectedVoice st) then st
  else stopPlayback (setAudioCache ∅ (setSelectedVoice voice st)).

(** The tail of [generateSpeech]: [if (!audioData) throw]. *)
Definition generateSpeechResult (audioData : option string) : option string :=
  match audioData with
  | Some data => if decide (data = "") then None else Some data
  | None => None
  end.

(** [playSegment] resumed after [await generateSpeech(...)]. *)
Definition speechSettled (fuel : nat) (k : nat) (audioData : option string)
    (st : State) : option State :=
  match speechCalls st !! k with
  | Some c =>
      if c_pending c then
        let st1 :=
          setSpeechCalls
            (<[k := mkCall (c_text c) (c_voiceName c) (c_resume c) false]> (speechCalls st)) st in
        match generateSpeechResult audioData with
        | Some pcmBase64 =>
            let key := TextSegment.id (cb_segment (c_resume c)) in
            let st2 := setAudioCache (<[key := pcmBase64]> (audioCache st1)) st1 in
            startPlaying (playSegment fuel) (c_resume c) pcmBase64 st2
        | None => Some (toIdle st1)
        end
      else Some st
  | None => Some st
  end.

(** The [ended] event of node [h]: dispatched once, when the buffer has
    played to its end or after [stop()]; it runs the handler installed
    in [onended], if any. *)
Definition sourceEnded (fuel : nat) (h : nat) (st : State) : option State :=
  match sources st !! h with
  | Some n =>
      match status n with
      | Ended => Some st
      | _ =>
          let st1 := setSources (<[h := mkSource (buffer n) (onended n) Ended]> (sources st)) st in
          match onended n with
          | Some cb => runOnEnded (playSegment fuel) cb (setActiveSourceRef None st1)
          | None => Some st1
          end
      end
  | None => Some st
  end.

Definition step (fuel : nat) (ev : Event) (st : State) : option State :=
  match ev with
  | SetInputText text => Some (setInputText text st)
  | ClickProcess => Some (handleProcess st)
  | AnalysisSettled result => Some (analysisSettled result st)
  | ClickClear => Some (handleClear st)
  | ClickPlayPause segment => handlePlayPause fuel segment st
  | ClickPlayAll => handlePlayAll fuel st
  | ClickStop => Some (stopPlayback st)
  | SelectVoice voice => Some (selectVoice voice st)
  | SpeechSettled k audioData => speechSettled fuel k audioData st
  | SourceEnded h => sourceEnded fuel h st
  end.

Fixpoint run (fuel : nat) (evs : list Event) (st : State) : option State :=
  match evs with
  | [] => Some st
  | ev :: rest => st' ← step fuel ev st; run fuel rest st'
  end.

Inductive reachable : State -> Prop :=
  | reachable_init : reachable initialState
  | reachable_step fuel ev st st' :
      reachable st -> step fuel ev st = Some st' -> reachable st'.

(** ** Sample session data *)

Definition seg1 : TextSegment.t :=
  TextSegment.mk "seg-1" "Reading is essential." "reading".
Definition seg2 : TextSegment.t :=
  TextSegment.mk "seg-2" "Knowledge is power." "knowledge".

(** The samples 0, 16384, -16384, 32767 as base64 PCM. *)
Definition pcmKnown : string := "AAAAQADA/38=".
(** A payload of one byte. *)
Definition pcmOdd : string := "AA==".

(** Text typed, analysed into [seg1; seg2]. *)
Definition analysed : list Event :=
  [SetInputText "Reading is essential. Knowledge is power."; ClickProcess;
   AnalysisSettled (Some [seg1; seg2])].

(** The state after a run from the first render (the first render itself
    if the run exceeds its fuel). *)
Definition stateAfter (evs : list Event) : State :=
  default initialState (run 4 evs initialState).

(** [seg1] playing, then play clicked on [seg2], not yet synthesized. *)
Definition loadingOverPlaying : list Event :=
  analysed ++ [ClickPlayPause seg1; SpeechSettled 0 (Some pcmKnown); ClickPlayPause seg2].

(** Play clicked on the uncached [seg1], then Stop, the call still out. *)
Definition stoppedWhileLoading : list Event :=
  analysed ++ [ClickPlayPause seg1; ClickStop].

(** Read All clicked, then Stop while the call for [seg1] is out. *)
Definition stoppedChain : list Event :=
  analysed ++ [ClickPlayAll; ClickStop].

(** Read All, and the payload of [seg1] arrives with one byte. *)
Definition chainWithBadPayload : list Event :=
  analysed ++ [ClickPlayAll; SpeechSettled 0 (Some pcmOdd)].

(** [seg1] playing, play clicked on the uncached [seg2], and [seg1]
    reaches its end before the payload of [seg2] has arrived. *)
Definition endsWhileLoading : list Event :=
  loadingOverPlaying ++ [SourceEnded 0].

(** ** An undisturbed Read All run *)

(** The payload played for a segment by a chain started on a render with
    cache [cache], when synthesis answers [synth]. *)
Definition payloadFor (cache : gmap string string) (synth : TextSegment.t -> string)
    (s : TextSegment.t) : string :=
  match cached cache (TextSegment.id s) with
  | Some pcm => pcm
  | None => synth s
  end.

(** What the environment does after the click when nothing else
    happens: for each segment in turn, the synthesis call (if one was
    made) resolves, and then the source plays to its end.  [nsrc] and
    [ncall] are the handle of the next node and the index of the next
    call. *)
Fixpoint chainEvents (cache : gmap string string) (synth : TextSegment.t -> string)
    (segs : list TextSegment.t) (nsrc ncall : nat) : list Event :=
  match segs with
  | [] => []
  | s :: rest =>
      match cached cache (TextSegment.id s) with
      | Some _ => SourceEnded nsrc :: chainEvents cache synth rest (S nsrc) ncall
      | None =>
          SpeechSettled ncall (Some (synth s)) :: SourceEnded nsrc
            :: chainEvents cache synth rest (S nsrc) (S ncall)
      end
  end.

(** The node of a segment that has been decoded and played to its end in
    a chain of render [r], and the settled call of a segment that had to
    be synthesized. *)
Definition playedNode (r : Render) (synth : TextSegment.t -> string)
    (s : TextSegment.t) : SourceNode :=
  mkSource (default [] (Decoder.decodePcm (payloadFor (r_audioCache r) synth s)))
    (Some (mkOnEnded r s true)) Ended.

Definition settledCall (r : Render) (s : TextSegment.t) : SpeechCall :=
  mkCall (TextSegment.original s) (r_selectedVoice r) (mkOnEnded r s true) false.

(** The state between the end of the source of [s] and the callback:
    [st] is the state in which [playSegment(s, true)] was called. *)
Definition afterCycle (r : Render) (synth : TextSegment.t -> string)
    (s : TextSegment.t) (st : State) : State :=
  let missed := bool_decide (cached (r_audioCache r) (TextSegment.id s) = None) in
  mkState (inputText st) (segments st) (isProcessing st) PLAYING
    (Some (TextSegment.id s)) (selectedVoice st)
    (if missed then <[TextSegment.id s := synth s]> (audioCache st) else audioCache st)
    None
    (sources (stopActive st) ++ [playedNode r synth s])
    (if missed then speechCalls st ++ [settledCall r s] else speechCalls st)
    (analysesPending st).

(** Three silent samples. *)
Definition pcmSilence : string := "AAAAAAAA".

(** Read All is clicked with nothing cached; while the call for [seg1]
    is out, play is clicked on [seg2], whose payload arrives, is cached
    and plays to its end; then the payload of [seg1] arrives and plays
    to its end. *)
Definition playedDuringChain : list Event :=
  analysed ++ [ClickPlayAll; ClickPlayPause seg2; SpeechSettled 1 (Some pcmKnown);
               SourceEnded 0; SpeechSettled 0 (Some pcmSilence)].

(** Play is clicked on [seg1], stopped, and clicked again, both calls
    still out; the first payload arrives and is cached; the voice is
    changed to Puck; the second payload, synthesized for Kore, arrives
    and plays to its end. *)
Definition voiceChangedInFlight : list Event :=
  analysed ++ [ClickPlayPause seg1; ClickStop; ClickPlayPause seg1;
               SpeechSettled 0 (Some pcmKnown); SelectVoice "Puck";
               SpeechSettled 1 (Some pcmSilence); SourceEnded 1].

(** [seg2] is played and cached under Kore; Read All is clicked and the
    voice changed to Puck while the call for [seg1] is out; the payload
    of [seg1] arrives and plays to its end. *)
Definition voiceChangedDuringChain : list Event :=
  analysed ++ [ClickPlayPause seg2; SpeechSettled 0 (Some pcmKnown); SourceEnded 0;
               ClickPlayAll; SelectVoice "Puck"; SpeechSettled 1 (Some pcmSilence)].

(** A segment of a later analysis that reuses the id "seg-1". *)
Definition seg1' : TextSegment.t :=
  TextSegment.mk "seg-1" "Time is money." "time".

(** Play is clicked on [seg1]; while its call is out a new text is
    submitted and analysed into [seg1']; the call resolves and its
    audio plays to its end. *)
Definition analysedInFlight : list Event :=
  analysed ++ [ClickPlayPause seg1; SetInputText "Time is money."; ClickProcess;
               AnalysisSettled (Some [seg1']); SpeechSettled 0 (Some pcmKnown);
               SourceEnded 0].

(** ** Predicates on states *)

(** Every node that is rendering is the one [activeSourceRef] holds, and
    its handler is installed. *)
Definition exclusive (st : State) : Prop :=
  forall h n, sources st !! h = Some n -> status n = Started ->
    activeSourceRef st = Some h /\ is_Some (onended n).

(** A node on which [stop()] was called has no handler. *)
Definition disarmed (st : State) : Prop :=
  forall h n, sources st !! h = Some n -> status n = Stopped -> onended n = None.

Definition engineInv (st : State) : Prop := exclusive st /\ disarmed st.

Definition playingHasSource (st : State) : Prop :=
  playbackState st = PLAYING ->
  exists h n, activeSourceRef st = Some h /\ sources st !! h = Some n /\ status n = Started.

Definition sessionInv (st : State) : Prop := engineInv st /\ playingHasSource st.

(** No node is rendering. *)
Definition quiet (st : State) : Prop :=
  forall h n, sources st !! h = Some n -> status n <> Started.

(** What a task that is not the node's own [ended] event may do to it. *)
Definition evolves (n n' : SourceNode) : Prop := n' = n \/ n' = stopNode n.

(** How the node store changes over a task: old nodes stay in place, and
    at most one node is created, which is then the active one. *)
Definition tracks (st st' : State) : Prop :=
  (forall h n, sources st !! h = Some n ->
     exists n', sources st' !! h = Some n' /\ evolves n n')
  /\ (length (sources st') = length (sources st)
      \/ (length (sources st') = S (length (sources st))
          /\ activeSourceRef st' = Some (length (sources st)))).

(** ** Properties of a closure standing for [playSegment] *)

(** A closure [rec] standing for [playSegment] restores the invariant. *)
Definition restores (rec : Render -> TextSegment.t -> bool -> State -> option State) : Prop :=
  forall r s a st st', engineInv st -> rec r s a st = Some st' -> sessionInv st'.

Definition follows (rec : Render -> TextSegment.t -> bool -> State -> option State) : Prop :=
  forall r s a st st', rec r s a st = Some st' -> tracks st st'.

Definition keepsCache (rec : Render -> TextSegment.t -> bool -> State -> option State) : Prop :=
  forall r s a st st', rec r s a st = Some st' ->
    audioCache st' = audioCache st /\ selectedVoice st' = selectedVoice st.

(** ** What a call of [playSegment] ends in *)

(** Relative to the state it was called in, [playSegment] (with the
    callbacks a failed decode runs inside it) ends in one of three ways:
    Idle with nothing new; LoadingAudio with one new synthesis call in
    flight; or Playing with one new source, which is the active one. *)
Definition outcome (st st' : State) : Prop :=
  (speechCalls st' = speechCalls st
   /\ length (sources st') = length (sources st)
   /\ playbackState st' = IDLE /\ playingSegmentId st' = None)
  \/ (exists c,
        speechCalls st' = speechCalls st ++ [c] /\ c_pending c = true
        /\ length (sources st') = length (sources st)
        /\ playbackState st' = LOADING_AUDIO
        /\ playingSegmentId st' = Some (TextSegment.id (cb_segment (c_resume c))))
  \/ (speechCalls st' = speechCalls st
      /\ length (sources st') = S (length (sources st))
      /\ playbackState st' = PLAYING
      /\ activeSourceRef st' = Some (length (sources st))).

Definition settles (rec : Render -> TextSegment.t -> bool -> State -> option State) : Prop :=
  forall r s a st st', rec r s a st = Some st' -> outcome st st'.

(** While the phase is LoadingAudio a segment is active and the newest
    synthesis call is in flight. *)
Definition loadingInv (st : State) : Prop :=
  playbackState st = LOADING_AUDIO ->
  is_Some (playingSegmentId st)
  /\ exists c, last (speechCalls st) = Some c /\ c_pending c = true.

(** Every cache entry is a non-empty payload stored by a settled
    synthesis call made for a segment with that id. *)
Definition cacheInv (st : State) : Prop :=
  forall key pcm, audioCache st !! key = Some pcm ->
    pcm <> ""
    /\ exists k c, speechCalls st !! k = Some c /\ c_pending c = false
                   /\ TextSegment.id (cb_segment (c_resume c)) = key.

(** A closure standing for [playSegment] that gives the same result
    with more fuel. *)
Definition extends (rec rec' : Render -> TextSegment.t -> bool -> State -> option State) : Prop :=
  forall r s a st st', rec r s a st = Some st' -> rec' r s a st = Some st'.

(** A render whose list repeats the id of [seg1] in the next segment and
    whose cache holds a payload of one byte for that id. *)
Definition repeatedIdRender : Render :=
  mkRender [seg1; seg1'; seg2] (<["seg-1" := pcmOdd]> ∅) "Kore".

(** ** What the rendered page offers *)

#[global] Instance TextSegment_eq_dec : EqDecision TextSegment.t.
Proof. solve_decision. Defined.

(** The [name]s of [VOICES], the options of the voice selector. *)
Definition VOICES : list string := ["Kore"; "Puck"; "Charon"; "Fenrir"; "Zephyr"].

(** The props [isPlaying] and [isLoading] that [App] passes to the
    [SegmentCard] of a segment. *)
Definition isPlaying (st : State) (segment : TextSegment.t) : bool :=
  bool_decide (playingSegmentId st = Some (TextSegment.id segment)).

Definition isLoading (st : State) (segment : TextSegment.t) : bool :=
  isPlaying st segment && bool_decide (playbackState st = LOADING_AUDIO).

(** [playingSegmentId && playbackState !== PlaybackState.IDLE]: the
    header shows Stop when this holds and Read All otherwise. *)
Definition showsStop (st : State) : bool :=
  match playingSegmentId st with
  | Some i => negb (bool_decide (i = "")) && negb (bool_decide (playbackState st = IDLE))
  | None => false
  end.

(** Whether the page rendered from [st] lets the user trigger [ev]: the
    results section is rendered for a non-empty list only, the card
    button is disabled while its segment loads, Start Analysis is
    disabled while processing or on a blank text, the Clear button is
    shown for a non-empty text, and the selector offers [VOICES].
    Settlements and [ended] events are not the user's and can always
    arrive. *)
Definition offered (st : State) (ev : Event) : bool :=
  match ev with
  | SetInputText _ => true
  | ClickProcess => negb (isProcessing st || trimIsEmpty (inputText st))
  | AnalysisSettled _ => true
  | ClickClear => negb (bool_decide (inputText st = ""))
  | ClickPlayPause segment =>
      bool_decide (segment ∈ segments st) && negb (isLoading st segment)
  | ClickPlayAll => negb (bool_decide (segments st = [])) && negb (showsStop st)
  | ClickStop => negb (bool_decide (segments st = [])) && showsStop st
  | SelectVoice voice => bool_decide (voice ∈ VOICES)
  | SpeechSettled _ _ => true
  | SourceEnded _ => true
  end.

(** The states reached through the page. *)
Inductive pageReachable : State -> Prop :=
  | pageReachable_init : pageReachable initialState
  | pageReachable_step fuel ev st st' :
      pageReachable st -> offered st ev = true -> step fuel ev st = Some st' ->
      pageReachable st'.

Definition keepsForm (rec : Render -> TextSegment.t -> bool -> State -> option State) : Prop :=
  forall r s a st st', rec r s a st = Some st' ->
    isProcessing st' = isProcessing st /\ analysesPending st' = analysesPending st.

(** Every voice the state holds, in the selector, in a synthesis call or
    in the render of a stored callback, is one of [VOICES]. *)
Definition voicesInv (st : State) : Prop :=
  selectedVoice st ∈ VOICES
  /\ (forall k c, speechCalls st !! k = Some c ->
        c_voiceName c ∈ VOICES /\ r_selectedVoice (cb_render (c_resume c)) ∈ VOICES)
  /\ (forall h n cb, sources st !! h = Some n -> onended n = Some cb ->
        r_selectedVoice (cb_render cb) ∈ VOICES).

Definition voiced (rec : Render -> TextSegment.t -> bool -> State -> option State) : Prop :=
  forall r s a st st',
    r_selectedVoice r ∈ VOICES -> voicesInv st -> rec r s a st = Some st' -> voicesInv st'.

(** A run in which every event is one the page offers when it occurs. *)
Fixpoint pageRun (fuel : nat) (evs : list Event) (st : State) : option State :=
  match evs with
  | [] => Some st
  | ev :: rest =>
      if offered st ev then st' ← step fuel ev st; pageRun fuel rest st' else None
  end.

(** * Properties *)

(** ** Decoder *)

Section DecoderFacts.
Import Decoder.

Lemma pair_list_ind {A} (P : list A -> Prop) :
  P [] -> (forall a, P [a]) -> (forall a b l, P l -> P (a :: b :: l)) -> forall l, P l.
Proof.
  intros Hnil Hone Hstep.
  assert (H : forall l, P l /\ forall a, P (a :: l)).
  { induction l as [|x l [IH1 IH2]]; split; auto. }
  intros l. apply H.
Qed.

Lemma int16Array_length (data : list byte) :
  length (int16Array data) = (length data / 2)%nat.
Proof.
  induction data as [|a|a b l IH] using pair_list_ind; try reflexivity.
  cbn [int16Array length]. rewrite IH.
  change (S (S (length l))) with (1 * 2 + length l)%nat.
  rewrite Nat.div_add_l by lia. lia.
Qed.

Lemma int16Array_lookup (data : list byte) (i : nat) (lo hi : byte) :
  data !! (2 * i)%nat = Some lo -> data !! (2 * i + 1)%nat = Some hi ->
  int16Array data !! i = Some (int16 lo hi).
Proof.
  revert i. induction data as [|a|a b l IH] using pair_list_ind; intros i Hlo Hhi.
  - discriminate.
  - destruct i; [discriminate|].
    replace (2 * S i)%nat with (S (S (2 * i))) in Hlo by lia. discriminate.
  - destruct i as [|i].
    + cbn in Hlo, Hhi |- *. congruence.
    + replace (2 * S i)%nat with (S (S (2 * i))) in Hlo by lia.
      replace (2 * S i + 1)%nat with (S (S (2 * i + 1))) in Hhi by lia.
      cbn [int16Array]. cbn in Hlo, Hhi |- *. apply IH; assumption.
Qed.

Lemma int16_range (lo hi : byte) : -32768 <= int16 lo hi <= 32767.
Proof.
  unfold int16.
  pose proof (Byte.to_N_bounded lo). pose proof (Byte.to_N_bounded hi).
  destruct (Z.ltb_spec (Z.of_N (Byte.to_N lo) + 256 * Z.of_N (Byte.to_N hi)) 32768); lia.
Qed.

Lemma int16Array_range (data : list byte) (v : Z) :
  v ∈ int16Array data -> -32768 <= v <= 32767.
Proof.
  induction data as [|a|a b l IH] using pair_list_ind; cbn [int16Array].
  - intros H. inversion H.
  - intros H. inversion H.
  - intros H. apply elem_of_cons in H as [->|H]; [apply int16_range | auto].
Qed.

Lemma sample_range (v : Z) :
  -32768 <= v <= 32767 -> (-1 <= inject_Z v / 32768 /\ inject_Z v / 32768 < 1)%Q.
Proof.
  intros Hv. unfold Qle, Qlt, Qdiv, Qmult, Qinv, inject_Z. simpl. lia.
Qed.


End DecoderFacts.

Example atob_known_samples :
  Decoder.decodeBase64 pcmKnown = Some [x00; x00; x00; x40; x00; xc0; xff; x7f]%byte.
Proof. vm_compute. reflexivity. Qed.

Example atob_rejects_bad_length : Decoder.atob "A" = None.
Proof. reflexivity. Qed.

Example decodePcm_empty : Decoder.decodePcm "" = None.
Proof. reflexivity. Qed.

Example decodePcm_odd : Decoder.decodePcm pcmOdd = None.
Proof. vm_compute. reflexivity. Qed.

(** C5.  An even-length, non-empty byte sequence decodes to one sample per
    little-endian 16-bit pair, in order, [length / 2] of them, each the
    signed value divided by 32768 (so within [-1, 1), never clipped or
    rescaled); the bytes of 0, 16384, -16384, 32767 decode to 0, 1/2,
    -1/2 and 32767/32768, which is within 10^-5 of 0.99997. *)
Theorem decodeAudioData_linear_scale (data : list byte) :
  data <> [] -> Nat.even (length data) = true ->
  exists out : list Q,
    Decoder.decodeAudioData data = Some out
    /\ length out = (length data / 2)%nat
    /\ (forall (i : nat) (lo hi : byte),
          data !! (2 * i)%nat = Some lo -> data !! (2 * i + 1)%nat = Some hi ->
          out !! i = Some (inject_Z (Decoder.int16 lo hi) / 32768)%Q)
    /\ (forall q : Q, q ∈ out -> (-1 <= q /\ q < 1)%Q)
    /\ (exists known : list Q,
          Decoder.decodeAudioData [x00; x00; x00; x40; x00; xc0; xff; x7f]%byte = Some known
          /\ Forall2 Qeq known [0; 1 # 2; - (1 # 2); 32767 # 32768]%Q
          /\ (Qabs ((32767 # 32768) - (99997 # 100000)) < 1 # 100000)%Q).
Proof.
  intros Hne Heven.
  exists (map (fun v => inject_Z v / 32768)%Q (Decoder.int16Array data)).
  split; [|split; [|split; [|split]]].
  - unfold Decoder.decodeAudioData. rewrite Heven. cbn [negb].
    rewrite int16Array_length.
    destruct data as [|a [|b l]]; [congruence | discriminate | ].
    cbn [length]. change (S (S (length l))) with (1 * 2 + length l)%nat.
    rewrite Nat.div_add_l by lia. reflexivity.
  - rewrite length_map. apply int16Array_length.
  - intros i lo hi Hlo Hhi. rewrite list_lookup_fmap.
    rewrite (int16Array_lookup data i lo hi Hlo Hhi). reflexivity.
  - intros q Hq. apply list_elem_of_fmap in Hq as (v & -> & Hv).
    apply sample_range. eapply int16Array_range; eassumption.
  - eexists. split; [vm_compute; reflexivity|]. split.
    + repeat constructor.
    + vm_compute. reflexivity.
Qed.

Lemma decodeAudioData_linear_scale_witness :
  [x00; x80; xff; x7f]%byte <> [] /\ Nat.even (length [x00; x80; xff; x7f]%byte) = true
  /\ exists out : list Q,
    Decoder.decodeAudioData [x00; x80; xff; x7f]%byte = Some out
    /\ length out = (length [x00; x80; xff; x7f]%byte / 2)%nat
    /\ (forall (i : nat) (lo hi : byte),
          [x00; x80; xff; x7f]%byte !! (2 * i)%nat = Some lo ->
          [x00; x80; xff; x7f]%byte !! (2 * i + 1)%nat = Some hi ->
          out !! i = Some (inject_Z (Decoder.int16 lo hi) / 32768)%Q)
    /\ (forall q : Q, q ∈ out -> (-1 <= q /\ q < 1)%Q)
    /\ (exists known : list Q,
          Decoder.decodeAudioData [x00; x00; x00; x40; x00; xc0; xff; x7f]%byte = Some known
          /\ Forall2 Qeq known [0; 1 # 2; - (1 # 2); 32767 # 32768]%Q
          /\ (Qabs ((32767 # 32768) - (99997 # 100000)) < 1 # 100000)%Q).
Proof.
  split; [discriminate|]. split; [reflexivity|].
  apply (decodeAudioData_linear_scale [x00; x80; xff; x7f]%byte); [discriminate | reflexivity].
Defined.

(** ** The playback engine keeps one rendering node *)

Section EngineInvariant.

Lemma stopActive_lookup (st : State) (h : nat) :
  sources (stopActive st) !! h =
    if decide (activeSourceRef st = Some h) then stopNode <$> sources st !! h
    else sources st !! h.
Proof.
  unfold stopActive. destruct (activeSourceRef st) as [a|] eqn:E; cbn.
  - destruct (decide (Some a = Some h)) as [[= ->]|Hne].
    + apply list_lookup_alter_eq.
    + apply list_lookup_alter_ne. congruence.
  - destruct (decide (None = Some h)); [discriminate | reflexivity].
Qed.

Lemma stopActive_length (st : State) :
  length (sources (stopActive st)) = length (sources st).
Proof.
  unfold stopActive. destruct (activeSourceRef st); cbn; [apply length_alter | reflexivity].
Qed.

Lemma stopActive_quiet (st : State) :
  engineInv st -> quiet (stopActive st) /\ disarmed (stopActive st).
Proof.
  intros [Hex Hdis]. split; intros h n; rewrite stopActive_lookup;
    destruct (decide (activeSourceRef st = Some h)) as [Ha|Ha].
  - intros Hn. apply fmap_Some in Hn as (m & Hm & ->).
    unfold stopNode; cbn. destruct (status m); discriminate.
  - intros Hn Hs. destruct (Hex h n Hn Hs) as [Hact _]. contradiction.
  - intros Hn. apply fmap_Some in Hn as (m & Hm & ->). reflexivity.
  - apply Hdis.
Qed.

Lemma quiet_engineInv (st : State) : quiet st -> disarmed st -> engineInv st.
Proof.
  intros Hq Hd. split; [|exact Hd]. intros h n Hn Hs. destruct (Hq h n Hn Hs).
Qed.

Lemma engineInv_frame (st st' : State) :
  sources st' = sources st -> activeSourceRef st' = activeSourceRef st ->
  engineInv st -> engineInv st'.
Proof.
  intros Hs Ha [Hex Hdis]. split.
  - intros h n. rewrite Hs, Ha. apply Hex.
  - intros h n. rewrite Hs. apply Hdis.
Qed.

Lemma quiet_frame (st st' : State) :
  sources st' = sources st -> quiet st -> disarmed st -> quiet st' /\ disarmed st'.
Proof.
  intros Hs Hq Hd. split; intros h n; rewrite Hs; [apply Hq | apply Hd].
Qed.

Lemma sessionInv_toIdle (st : State) : engineInv st -> sessionInv (toIdle st).
Proof.
  intros H. split.
  - eapply engineInv_frame; [| |exact H]; reflexivity.
  - intros Hp. discriminate.
Qed.

Lemma sessionInv_loading (st st' : State) :
  sources st' = sources st -> activeSourceRef st' = activeSourceRef st ->
  playbackState st' <> PLAYING -> engineInv st -> sessionInv st'.
Proof.
  intros Hs Ha Hp H. split.
  - eapply engineInv_frame; eassumption.
  - intros Hp'. contradiction.
Qed.

Lemma sessionInv_started (st : State) (buf : list Q) (cb : OnEnded) :
  quiet st -> disarmed st ->
  sessionInv (setActiveSourceRef (Some (length (sources st)))
                (setSources (sources st ++ [mkSource buf (Some cb) Started]) st)).
Proof.
  intros Hq Hd. split; [split|].
  - intros h n; cbn. intros Hn Hs.
    apply lookup_app_Some in Hn as [Hn|[Hlen Hn]].
    + destruct (Hq h n Hn Hs).
    + apply list_lookup_singleton_Some in Hn as [Hz <-].
      split; [f_equal; lia | eexists; reflexivity].
  - intros h n; cbn. intros Hn Hs.
    apply lookup_app_Some in Hn as [Hn|[Hlen Hn]].
    + eapply Hd; eassumption.
    + apply list_lookup_singleton_Some in Hn as [Hz <-]. discriminate.
  - intros _. exists (length (sources st)), (mkSource buf (Some cb) Started); cbn.
    split; [reflexivity|]. split; [|reflexivity].
    rewrite lookup_app_r by lia. rewrite Nat.sub_diag. reflexivity.
Qed.

Lemma runOnEnded_inv rec cb st st' :
  restores rec -> engineInv st -> runOnEnded rec cb st = Some st' -> sessionInv st'.
Proof.
  intros Hrec Hinv. unfold runOnEnded, playNextSegment.
  destruct (cb_autoPlayNext cb).
  - destruct (findIndex _ _) as [i|].
    + destruct (r_segments (cb_render cb) !! S i) as [next|].
      * apply Hrec; assumption.
      * intros [= <-]. apply sessionInv_toIdle; assumption.
    + intros [= <-]. apply sessionInv_toIdle; assumption.
  - intros [= <-]. apply sessionInv_toIdle; assumption.
Qed.

Lemma startPlaying_inv rec cb pcm st st' :
  restores rec -> engineInv st -> startPlaying rec cb pcm st = Some st' -> sessionInv st'.
Proof.
  intros Hrec Hinv. unfold startPlaying, playPcmData.
  assert (Hinv1 : engineInv (setPlaybackState PLAYING st))
    by (eapply engineInv_frame; [| |exact Hinv]; reflexivity).
  destruct (stopActive_quiet _ Hinv1) as [Hq Hd].
  destruct (Decoder.decodePcm pcm) as [buf|].
  - intros [= <-]. apply sessionInv_started; assumption.
  - apply runOnEnded_inv; [assumption|]. apply quiet_engineInv; assumption.
Qed.

Lemma playSegment_restores fuel : restores (playSegment fuel).
Proof.
  induction fuel as [|fuel IH]; intros r s a st st' Hinv; cbn [playSegment]; [discriminate|].
  destruct (cached _ _) as [pcm|].
  - apply (startPlaying_inv _ _ _ _ _ IH).
    eapply engineInv_frame; [| |exact Hinv]; reflexivity.
  - intros [= <-]. eapply sessionInv_loading; [| | |exact Hinv]; try reflexivity.
    cbn. discriminate.
Qed.

Lemma stopPlayback_inv (st : State) : engineInv st -> sessionInv (stopPlayback st).
Proof.
  intros Hinv. unfold stopPlayback. apply sessionInv_toIdle.
  destruct (activeSourceRef st) as [a|] eqn:E; [|assumption].
  destruct (stopActive_quiet _ Hinv) as [Hq Hd].
  apply quiet_engineInv.
  - intros h m. cbn. apply Hq.
  - intros h m. cbn. apply Hd.
Qed.

Lemma sourceEnded_inv fuel h st st' :
  sessionInv st -> sourceEnded fuel h st = Some st' -> sessionInv st'.
Proof.
  intros Hinv. pose proof Hinv as [[Hex Hdis] Hplay]. unfold sourceEnded.
  destruct (sources st !! h) as [n|] eqn:Hn; [|intros [= <-]; exact Hinv].
  assert (Hfired : forall st1,
    sources st1 = <[h := mkSource (buffer n) (onended n) Ended]> (sources st) ->
    status n = Started -> quiet st1 /\ disarmed st1).
  { intros st1 Hs Hst. split; intros k m; rewrite Hs; intros Hm.
    - destruct (decide (k = h)) as [->|Hk].
      + rewrite list_lookup_insert_eq in Hm by (eapply lookup_lt_Some; eassumption).
        injection Hm as <-. discriminate.
      + rewrite list_lookup_insert_ne in Hm by congruence.
        intros Hs'. destruct (Hex k m Hm Hs') as [Hk' _].
        destruct (Hex h n Hn Hst) as [Hh' _]. congruence.
    - destruct (decide (k = h)) as [->|Hk].
      + rewrite list_lookup_insert_eq in Hm by (eapply lookup_lt_Some; eassumption).
        injection Hm as <-. discriminate.
      + rewrite list_lookup_insert_ne in Hm by congruence. eapply Hdis; eassumption. }
  destruct (status n) eqn:Hst.
  - (* the node played to its end *)
    destruct (onended n) as [cb|] eqn:Hcb.
    + apply runOnEnded_inv; [apply playSegment_restores|].
      destruct (Hfired (setActiveSourceRef None
                  (setSources (<[h := mkSource (buffer n) (Some cb) Ended]> (sources st)) st)))
        as [Hq Hd]; [reflexivity | reflexivity |].
      apply quiet_engineInv; assumption.
    + destruct (Hex h n Hn Hst) as [_ [cb Hcb']]. congruence.
  - (* the event that follows stop(): no handler *)
    rewrite (Hdis h n Hn Hst). intros [= <-]. split; [split|].
    + intros k m; cbn. destruct (decide (k = h)) as [->|Hk].
      * rewrite list_lookup_insert_eq by (eapply lookup_lt_Some; eassumption).
        intros [= <-]. discriminate.
      * rewrite list_lookup_insert_ne by congruence. apply Hex.
    + intros k m; cbn. destruct (decide (k = h)) as [->|Hk].
      * rewrite list_lookup_insert_eq by (eapply lookup_lt_Some; eassumption).
        intros [= <-]. discriminate.
      * rewrite list_lookup_insert_ne by congruence. apply Hdis.
    + intros Hp. destruct (Hplay Hp) as (k & m & Ha & Hm & Hs).
      exists k, m. cbn. split; [assumption|]. split; [|assumption].
      rewrite list_lookup_insert_ne; [assumption|]. intros ->. congruence.
  - intros [= <-]. exact Hinv.
Qed.

Lemma speechSettled_inv fuel k audioData st st' :
  sessionInv st -> speechSettled fuel k audioData st = Some st' -> sessionInv st'.
Proof.
  intros [Hinv Hplay]. unfold speechSettled.
  destruct (speechCalls st !! k) as [c|]; [|intros [= <-]; split; assumption].
  destruct (c_pending c); [|intros [= <-]; split; assumption].
  destruct (generateSpeechResult audioData) as [pcm|].
  - apply startPlaying_inv; [apply playSegment_restores|].
    eapply engineInv_frame; [| |exact Hinv]; reflexivity.
  - intros [= <-]. apply sessionInv_toIdle.
    eapply engineInv_frame; [| |exact Hinv]; reflexivity.
Qed.

Lemma sessionInv_frame (st st' : State) :
  sources st' = sources st -> activeSourceRef st' = activeSourceRef st ->
  playbackState st' = playbackState st -> sessionInv st -> sessionInv st'.
Proof.
  intros Hs Ha Hp [Hinv Hplay]. split.
  - eapply engineInv_frame; eassumption.
  - unfold playingHasSource. rewrite Hs, Ha, Hp. exact Hplay.
Qed.

Lemma step_inv fuel ev st st' :
  sessionInv st -> step fuel ev st = Some st' -> sessionInv st'.
Proof.
  intros Hinv. pose proof Hinv as [Heng _].
  destruct ev; cbn [step].
  - intros [= <-]. eapply sessionInv_frame; [| | |exact Hinv]; reflexivity.
  - intros [= <-]. unfold handleProcess. destruct (trimIsEmpty _); [assumption|].
    eapply sessionInv_frame; [| | |apply (stopPlayback_inv st Heng)]; reflexivity.
  - intros [= <-]. unfold analysisSettled. destruct (analysesPending st); [assumption|].
    destruct result; (eapply sessionInv_frame; [| | |exact Hinv]; reflexivity).
  - intros [= <-]. unfold handleClear.
    eapply sessionInv_frame; [| | |apply (stopPlayback_inv st Heng)]; reflexivity.
  - unfold handlePlayPause. destruct (decide _).
    + intros [= <-]. apply stopPlayback_inv; assumption.
    + apply playSegment_restores; assumption.
  - unfold handlePlayAll. destruct (segments st); [intros [= <-]; assumption|].
    apply playSegment_restores; assumption.
  - intros [= <-]. apply stopPlayback_inv; assumption.
  - intros [= <-]. unfold selectVoice. destruct (decide _); [assumption|].
    apply stopPlayback_inv. eapply engineInv_frame; [| |exact Heng]; reflexivity.
  - apply speechSettled_inv; assumption.
  - apply sourceEnded_inv; assumption.
Qed.

Lemma reachable_inv (st : State) : reachable st -> sessionInv st.
Proof.
  induction 1 as [|fuel ev st st' _ IH Hstep].
  - split; [split|]; try (intros h n Hn; cbn in Hn; discriminate). intros Hp; discriminate.
  - eapply step_inv; eassumption.
Qed.

End EngineInvariant.

(** ** What one task does to the node store *)

Section NodeStore.

Lemma stopNode_idemp (n : SourceNode) : stopNode (stopNode n) = stopNode n.
Proof. destruct n as [b o []]; reflexivity. Qed.

Lemma evolves_trans (a b c : SourceNode) : evolves a b -> evolves b c -> evolves a c.
Proof.
  intros [->| ->] [->| ->]; unfold evolves; auto. rewrite stopNode_idemp. auto.
Qed.

Lemma tracks_frame (st st' : State) : sources st' = sources st -> tracks st st'.
Proof.
  intros Hs. split.
  - intros h n Hn. exists n. rewrite Hs. split; [assumption | left; reflexivity].
  - left. rewrite Hs. reflexivity.
Qed.

Lemma tracks_stopActive (st : State) : tracks st (stopActive st).
Proof.
  split.
  - intros h n Hn. rewrite stopActive_lookup, Hn.
    destruct (decide _); eexists; (split; [reflexivity|]); [right | left]; reflexivity.
  - left. apply stopActive_length.
Qed.

Lemma tracks_trans (a b c : State) :
  tracks a b -> length (sources b) = length (sources a) -> tracks b c -> tracks a c.
Proof.
  intros [Hab _] Hlen [Hbc Hshape]. split.
  - intros h n Hn. destruct (Hab h n Hn) as (n1 & Hn1 & E1).
    destruct (Hbc h n1 Hn1) as (n2 & Hn2 & E2).
    exists n2. split; [assumption | eapply evolves_trans; eassumption].
  - rewrite <- Hlen. exact Hshape.
Qed.

Lemma tracks_started (st : State) (buf : list Q) (cb : OnEnded) :
  tracks st (setActiveSourceRef (Some (length (sources st)))
               (setSources (sources st ++ [mkSource buf (Some cb) Started]) st)).
Proof.
  split; cbn.
  - intros h n Hn. exists n. split; [|left; reflexivity].
    apply lookup_app_l_Some. assumption.
  - right. rewrite length_app. cbn. split; [lia | reflexivity].
Qed.

Lemma runOnEnded_tracks rec cb st st' :
  follows rec -> runOnEnded rec cb st = Some st' -> tracks st st'.
Proof.
  intros Hrec. unfold runOnEnded, playNextSegment.
  destruct (cb_autoPlayNext cb).
  - destruct (findIndex _ _) as [i|].
    + destruct (r_segments (cb_render cb) !! S i) as [next|].
      * apply Hrec.
      * intros [= <-]. apply tracks_frame. reflexivity.
    + intros [= <-]. apply tracks_frame. reflexivity.
  - intros [= <-]. apply tracks_frame. reflexivity.
Qed.

Lemma startPlaying_tracks rec cb pcm st st' :
  follows rec -> startPlaying rec cb pcm st = Some st' -> tracks st st'.
Proof.
  intros Hrec. unfold startPlaying, playPcmData.
  set (st0 := setPlaybackState PLAYING st).
  assert (H0 : tracks st (stopActive st0)).
  { eapply (tracks_trans _ st0); [apply tracks_frame; reflexivity | reflexivity |].
    apply tracks_stopActive. }
  assert (Hlen : length (sources (stopActive st0)) = length (sources st))
    by (rewrite stopActive_length; reflexivity).
  destruct (Decoder.decodePcm pcm) as [buf|].
  - intros [= <-]. eapply tracks_trans; [exact H0 | exact Hlen | apply tracks_started].
  - intros H. eapply tracks_trans; [exact H0 | exact Hlen |].
    eapply runOnEnded_tracks; eassumption.
Qed.

Lemma playSegment_follows fuel : follows (playSegment fuel).
Proof.
  induction fuel as [|fuel IH]; intros r s a st st'; cbn [playSegment]; [discriminate|].
  destruct (cached _ _) as [pcm|].
  - intros H. eapply (tracks_trans _ (setPlayingSegmentId (Some (TextSegment.id s)) st));
      [apply tracks_frame; reflexivity | reflexivity |].
    eapply startPlaying_tracks; eassumption.
  - intros [= <-]. apply tracks_frame. reflexivity.
Qed.

Lemma tracks_stopPlayback (st : State) : tracks st (stopPlayback st).
Proof.
  unfold stopPlayback. destruct (activeSourceRef st) as [a|] eqn:E.
  - eapply tracks_trans; [apply tracks_stopActive | apply stopActive_length |].
    apply tracks_frame. reflexivity.
  - apply tracks_frame. reflexivity.
Qed.

Lemma stopPlayback_length (st : State) :
  length (sources (stopPlayback st)) = length (sources st).
Proof.
  unfold stopPlayback. destruct (activeSourceRef st); cbn;
    rewrite ?stopActive_length; reflexivity.
Qed.

(** Every task but the [ended] event of a node. *)
Lemma step_tracks fuel ev st st' :
  (forall h, ev <> SourceEnded h) -> step fuel ev st = Some st' -> tracks st st'.
Proof.
  intros Hev. destruct ev; cbn [step].
  - intros [= <-]. apply tracks_frame. reflexivity.
  - intros [= <-]. unfold handleProcess. destruct (trimIsEmpty _);
      [apply tracks_frame; reflexivity|].
    eapply tracks_trans;
      [apply tracks_stopPlayback | apply stopPlayback_length | apply tracks_frame; reflexivity].
  - intros [= <-]. apply tracks_frame. unfold analysisSettled.
    destruct (analysesPending st); [reflexivity|]. destruct result; reflexivity.
  - intros [= <-]. unfold handleClear.
    eapply tracks_trans;
      [apply tracks_stopPlayback | apply stopPlayback_length | apply tracks_frame; reflexivity].
  - unfold handlePlayPause. destruct (decide _).
    + intros [= <-]. apply tracks_stopPlayback.
    + apply playSegment_follows.
  - unfold handlePlayAll. destruct (segments st);
      [intros [= <-]; apply tracks_frame; reflexivity | apply playSegment_follows].
  - intros [= <-]. apply tracks_stopPlayback.
  - intros [= <-]. unfold selectVoice. destruct (decide _); [apply tracks_frame; reflexivity|].
    eapply (tracks_trans _ (setAudioCache ∅ (setSelectedVoice voice st)));
      [apply tracks_frame; reflexivity | reflexivity | apply tracks_stopPlayback].
  - unfold speechSettled. destruct (speechCalls st !! call) as [c|];
      [|intros [= <-]; apply tracks_frame; reflexivity].
    destruct (c_pending c); [|intros [= <-]; apply tracks_frame; reflexivity].
    destruct (generateSpeechResult audioData) as [pcm|].
    + intros H. eapply tracks_trans; [| |eapply startPlaying_tracks;
        [apply playSegment_follows | exact H]]; [apply tracks_frame|]; reflexivity.
    + intros [= <-]. apply tracks_frame. reflexivity.
  - destruct (Hev handle). reflexivity.
Qed.

End NodeStore.

(** ** Reachable states and runs *)

Lemma run_reachable fuel evs st st' :
  reachable st -> run fuel evs st = Some st' -> reachable st'.
Proof.
  revert st. induction evs as [|ev evs IH]; intros st Hst; cbn [run].
  - intros [= <-]. assumption.
  - destruct (step fuel ev st) as [st1|] eqn:E; cbn; [|discriminate].
    apply IH. eapply reachable_step; eassumption.
Qed.

Lemma step_new_source fuel ev st st' :
  sessionInv st -> step fuel ev st = Some st' ->
  (length (sources st) < length (sources st'))%nat ->
  forall h n, sources st !! h = Some n -> status n = Started ->
    exists n', sources st' !! h = Some n'
      /\ ((status n' = Stopped /\ onended n' = None)
          \/ (ev = SourceEnded h /\ status n' = Ended)).
Proof.
  intros Hinv Hstep Hgrow h n Hn Hs.
  pose proof (step_inv _ _ _ _ Hinv Hstep) as [[Hex' _] _].
  assert (Hgen : (forall h0, ev <> SourceEnded h0) ->
    exists n', sources st' !! h = Some n'
      /\ ((status n' = Stopped /\ onended n' = None)
          \/ (ev = SourceEnded h /\ status n' = Ended))).
  { intros Hev. destruct (step_tracks _ _ _ _ Hev Hstep) as [Hnodes Hshape].
    destruct (Hnodes h n Hn) as (n' & Hn' & [->| ->]).
    - exfalso. destruct Hshape as [Hl|[_ Ha]]; [lia|].
      destruct (Hex' h n Hn' Hs) as [Ha' _].
      apply lookup_lt_Some in Hn. rewrite Ha in Ha'. injection Ha' as Ha'. lia.
    - eexists. split; [exact Hn'|]. left. unfold stopNode; cbn. rewrite Hs. auto. }
  destruct ev; try (apply Hgen; discriminate).
  clear Hgen. cbn [step] in Hstep. unfold sourceEnded in Hstep.
  destruct Hinv as [[Hex Hdis] _].
  destruct (sources st !! handle) as [n0|] eqn:Hn0; [|injection Hstep as <-; lia].
  destruct (status n0) eqn:Hs0.
  - destruct (Hex h n Hn Hs) as [Ha _]. destruct (Hex handle n0 Hn0 Hs0) as [Ha0 [cb Hcb]].
    assert (handle = h) as -> by congruence. assert (n0 = n) as -> by congruence.
    rewrite Hcb in Hstep.
    apply runOnEnded_tracks in Hstep as [Hnodes _]; [|apply playSegment_follows].
    destruct (Hnodes h (mkSource (buffer n) (Some cb) Ended)) as (n' & Hn' & Hev).
    { cbn. apply list_lookup_insert_eq. eapply lookup_lt_Some; eassumption. }
    exists n'. split; [assumption|]. right. split; [reflexivity|].
    destruct Hev as [->| ->]; reflexivity.
  - rewrite (Hdis handle n0 Hn0 Hs0) in Hstep. injection Hstep as <-.
    cbn in Hgrow. rewrite length_insert in Hgrow. lia.
  - injection Hstep as <-. lia.
Qed.

(** ** Claims about the playback engine *)

(** C3.  In every reachable state at most one source is rendering, and it
    is the one the active handle refers to; when a task starts a new
    source, the source that was rendering before has been stopped with
    its completion callback removed (unless the task is that source's
    own natural end); an explicit stop does the same; and a stopped
    source has no callback, so its [ended] event only marks it ended and
    never runs the natural-completion notification. *)
Theorem one_active_source (st : State) :
  reachable st ->
  (forall h1 h2 n1 n2,
      sources st !! h1 = Some n1 -> sources st !! h2 = Some n2 ->
      status n1 = Started -> status n2 = Started ->
      h1 = h2 /\ activeSourceRef st = Some h1)
  /\ (forall fuel ev st',
        step fuel ev st = Some st' ->
        (length (sources st) < length (sources st'))%nat ->
        forall h n, sources st !! h = Some n -> status n = Started ->
          exists n', sources st' !! h = Some n'
            /\ ((status n' = Stopped /\ onended n' = None)
                \/ (ev = SourceEnded h /\ status n' = Ended)))
  /\ (forall h n, sources st !! h = Some n -> status n = Started ->
        sources (stopPlayback st) !! h = Some (mkSource (buffer n) None Stopped))
  /\ (forall h n, sources st !! h = Some n -> status n = Stopped ->
        onended n = None
        /\ forall fuel,
             sourceEnded fuel h st =
               Some (setSources (<[h := mkSource (buffer n) None Ended]> (sources st)) st)).
Proof.
  intros Hreach. pose proof (reachable_inv st Hreach) as Hinv.
  pose proof Hinv as [[Hex Hdis] _].
  split; [|split; [|split]].
  - intros h1 h2 n1 n2 H1 H2 S1 S2.
    destruct (Hex h1 n1 H1 S1) as [A1 _]. destruct (Hex h2 n2 H2 S2) as [A2 _].
    split; [congruence | assumption].
  - intros fuel ev st' Hstep Hgrow. eapply step_new_source; eassumption.
  - intros h n Hn Hs. destruct (Hex h n Hn Hs) as [Ha _].
    unfold stopPlayback. rewrite Ha. cbn.
    rewrite stopActive_lookup, Hn. rewrite decide_True by assumption.
    cbn. unfold stopNode. rewrite Hs. reflexivity.
  - intros h n Hn Hs. pose proof (Hdis h n Hn Hs) as Hoff. split; [assumption|].
    intros fuel. unfold sourceEnded. rewrite Hn, Hs, Hoff. reflexivity.
Qed.

Lemma stateAfter_reachable (evs : list Event) : reachable (stateAfter evs).
Proof.
  unfold stateAfter. destruct (run 4 evs initialState) as [st|] eqn:E; cbn.
  - eapply run_reachable; [apply reachable_init | exact E].
  - apply reachable_init.
Qed.

Lemma one_active_source_witness :
  reachable (stateAfter loadingOverPlaying)
  /\ ((forall h1 h2 n1 n2,
      sources (stateAfter loadingOverPlaying) !! h1 = Some n1 ->
      sources (stateAfter loadingOverPlaying) !! h2 = Some n2 ->
      status n1 = Started -> status n2 = Started ->
      h1 = h2 /\ activeSourceRef (stateAfter loadingOverPlaying) = Some h1)
  /\ (forall fuel ev st',
        step fuel ev (stateAfter loadingOverPlaying) = Some st' ->
        (length (sources (stateAfter loadingOverPlaying)) < length (sources st'))%nat ->
        forall h n, sources (stateAfter loadingOverPlaying) !! h = Some n -> status n = Started ->
          exists n', sources st' !! h = Some n'
            /\ ((status n' = Stopped /\ onended n' = None)
                \/ (ev = SourceEnded h /\ status n' = Ended)))
  /\ (forall h n, sources (stateAfter loadingOverPlaying) !! h = Some n -> status n = Started ->
        sources (stopPlayback (stateAfter loadingOverPlaying)) !! h
          = Some (mkSource (buffer n) None Stopped))
  /\ (forall h n, sources (stateAfter loadingOverPlaying) !! h = Some n -> status n = Stopped ->
        onended n = None
        /\ forall fuel,
             sourceEnded fuel h (stateAfter loadingOverPlaying) =
               Some (setSources (<[h := mkSource (buffer n) None Ended]>
                                   (sources (stateAfter loadingOverPlaying)))
                       (stateAfter loadingOverPlaying)))).
Proof.
  split; [apply stateAfter_reachable|].
  apply (one_active_source (stateAfter loadingOverPlaying)). apply stateAfter_reachable.
Defined.

(** C4, as stated, fails: after [seg1] has started playing and play is
    clicked on the uncached [seg2], the phase is LoadingAudio while the
    active handle is non-null and its source is still rendering. *)
Lemma handle_iff_playing_counterexample :
  reachable (stateAfter loadingOverPlaying)
  /\ playbackState (stateAfter loadingOverPlaying) = LOADING_AUDIO
  /\ activeSourceRef (stateAfter loadingOverPlaying) = Some 0%nat
  /\ status <$> sources (stateAfter loadingOverPlaying) !! 0%nat = Some Started
  /\ ~ (activeSourceRef (stateAfter loadingOverPlaying) <> None
        <-> playbackState (stateAfter loadingOverPlaying) = PLAYING).
Proof.
  split; [apply stateAfter_reachable|].
  split; [vm_compute; reflexivity|]. split; [vm_compute; reflexivity|].
  split; [vm_compute; reflexivity|].
  intros [H _].
  assert (Hl : playbackState (stateAfter loadingOverPlaying) = LOADING_AUDIO)
    by (vm_compute; reflexivity).
  rewrite Hl in H. assert (LOADING_AUDIO = PLAYING); [|discriminate].
  apply H. vm_compute. discriminate.
Qed.

(** C4, amended.  In every reachable state: if the phase is Playing, the
    active handle is non-null and refers to a rendering source; a
    rendering source is always the one the active handle refers to; and
    when a task has started a new source, no earlier source is rendering
    any more. *)
Theorem playing_has_active_source (st : State) :
  reachable st ->
  (playbackState st = PLAYING ->
     exists h n, activeSourceRef st = Some h /\ sources st !! h = Some n /\ status n = Started)
  /\ (forall h n, sources st !! h = Some n -> status n = Started -> activeSourceRef st = Some h)
  /\ (forall fuel ev st',
        step fuel ev st = Some st' ->
        (length (sources st) < length (sources st'))%nat ->
        forall h n', (h < length (sources st))%nat -> sources st' !! h = Some n' ->
          status n' <> Started).
Proof.
  intros Hreach. pose proof (reachable_inv st Hreach) as Hinv.
  pose proof Hinv as [[Hex Hdis] Hplay].
  split; [exact Hplay|]. split.
  - intros h n Hn Hs. apply (Hex h n Hn Hs).
  - intros fuel ev st' Hstep Hgrow h n' Hlt Hn' Hs'.
    pose proof (step_inv _ _ _ _ Hinv Hstep) as [[Hex' _] _].
    destruct (Hex' h n' Hn' Hs') as [Ha' _].
    assert (Hshape : activeSourceRef st' = Some (length (sources st))).
    { destruct ev;
        try (assert (Htr : tracks st st')
               by (eapply step_tracks; [|exact Hstep]; discriminate);
             destruct Htr as [_ [Hl|[_ Ha]]]; [lia | exact Ha]).
      cbn [step] in Hstep. unfold sourceEnded in Hstep.
      destruct (sources st !! handle) as [n0|] eqn:Hn0; [|injection Hstep as <-; lia].
      destruct (status n0) eqn:Hs0; [| |injection Hstep as <-; lia].
      - destruct (onended n0) as [cb|];
          [|injection Hstep as <-; cbn in Hgrow; rewrite length_insert in Hgrow; lia].
        apply runOnEnded_tracks in Hstep as [_ [Hl|[_ Ha]]]; [| |apply playSegment_follows].
        + cbn in Hl. rewrite length_insert in Hl. lia.
        + cbn in Ha. rewrite length_insert in Ha. exact Ha.
      - rewrite (Hdis handle n0 Hn0 Hs0) in Hstep. injection Hstep as <-.
        cbn in Hgrow. rewrite length_insert in Hgrow. lia. }
    rewrite Hshape in Ha'. injection Ha' as Ha'. lia.
Qed.

Lemma playing_has_active_source_witness :
  reachable (stateAfter (analysed ++ [ClickPlayPause seg1; SpeechSettled 0 (Some pcmKnown)]))
  /\ ((playbackState (stateAfter (analysed ++ [ClickPlayPause seg1; SpeechSettled 0 (Some pcmKnown)]))
         = PLAYING ->
     exists h n,
       activeSourceRef (stateAfter (analysed ++ [ClickPlayPause seg1; SpeechSettled 0 (Some pcmKnown)]))
         = Some h
       /\ sources (stateAfter (analysed ++ [ClickPlayPause seg1; SpeechSettled 0 (Some pcmKnown)])) !! h
            = Some n
       /\ status n = Started)
  /\ (forall h n,
        sources (stateAfter (analysed ++ [ClickPlayPause seg1; SpeechSettled 0 (Some pcmKnown)])) !! h
          = Some n ->
        status n = Started ->
        activeSourceRef (stateAfter (analysed ++ [ClickPlayPause seg1; SpeechSettled 0 (Some pcmKnown)]))
          = Some h)
  /\ (forall fuel ev st',
        step fuel ev (stateAfter (analysed ++ [ClickPlayPause seg1; SpeechSettled 0 (Some pcmKnown)]))
          = Some st' ->
        (length (sources (stateAfter (analysed ++ [ClickPlayPause seg1; SpeechSettled 0 (Some pcmKnown)])))
           < length (sources st'))%nat ->
        forall h n',
          (h < length (sources (stateAfter (analysed ++ [ClickPlayPause seg1; SpeechSettled 0 (Some pcmKnown)]))))%nat ->
          sources st' !! h = Some n' ->
          status n' <> Started)).
Proof.
  split; [apply stateAfter_reachable|].
  apply (playing_has_active_source
           (stateAfter (analysed ++ [ClickPlayPause seg1; SpeechSettled 0 (Some pcmKnown)]))).
  apply stateAfter_reachable.
Defined.

(** ** Claims about the sequencer *)

Lemma findIndex_lookup (l : list TextSegment.t) (i : nat) (s : TextSegment.t) :
  NoDup (TextSegment.id <$> l) -> l !! i = Some s ->
  findIndex (TextSegment.id s) l = Some i.
Proof.
  revert i. induction l as [|x l IH]; intros i Hnd Hi; [discriminate|].
  apply NoDup_cons in Hnd as [Hx Hnd]. cbn [findIndex].
  destruct i as [|i]; cbn in Hi.
  - injection Hi as ->. rewrite decide_True by reflexivity. reflexivity.
  - rewrite decide_False.
    + rewrite (IH i Hnd Hi). reflexivity.
    + intros Heq. apply Hx. rewrite Heq. apply list_elem_of_fmap.
      exists s. split; [reflexivity|]. eapply list_elem_of_lookup_2. eassumption.
Qed.

Lemma startPlaying_decoded rec cb pcm buf st :
  Decoder.decodePcm pcm = Some buf ->
  startPlaying rec cb pcm st =
    Some (setActiveSourceRef (Some (length (sources st)))
            (setSources (sources (stopActive (setPlaybackState PLAYING st))
                           ++ [mkSource buf (Some cb) Started])
               (stopActive (setPlaybackState PLAYING st)))).
Proof.
  intros H. unfold startPlaying, playPcmData. rewrite H, stopActive_length. reflexivity.
Qed.

Lemma startPlaying_failed rec cb pcm st :
  Decoder.decodePcm pcm = None ->
  startPlaying rec cb pcm st = runOnEnded rec cb (stopActive (setPlaybackState PLAYING st)).
Proof. intros H. unfold startPlaying, playPcmData. rewrite H. reflexivity. Qed.

Lemma stopActive_fields (st : State) :
  playbackState (stopActive st) = playbackState st
  /\ playingSegmentId (stopActive st) = playingSegmentId st
  /\ audioCache (stopActive st) = audioCache st
  /\ speechCalls (stopActive st) = speechCalls st
  /\ activeSourceRef (stopActive st) = activeSourceRef st
  /\ segments (stopActive st) = segments st
  /\ selectedVoice (stopActive st) = selectedVoice st.
Proof.
  unfold stopActive. destruct (activeSourceRef st) eqn:E; cbn; rewrite ?E; repeat split; reflexivity.
Qed.

(** A synthesis call in flight that resolves with a payload that decodes
    starts playback in whatever state it finds: the continuation of
    [playSegment] after [await generateSpeech] looks at nothing that
    happened since the call was made.  [stopPlayback] in particular
    leaves the call as it is. *)
Lemma settled_call_starts_playback
    (fuel k : nat) (st : State) (c : SpeechCall) (pcm : string) (buf : list Q) :
  speechCalls st !! k = Some c -> c_pending c = true ->
  Decoder.decodePcm pcm = Some buf ->
  (speechCalls (stopPlayback st) = speechCalls st
   /\ playbackState (stopPlayback st) = IDLE
   /\ playingSegmentId (stopPlayback st) = None
   /\ activeSourceRef (stopPlayback st) = None)
  /\ exists st',
       step fuel (SpeechSettled k (Some pcm)) st = Some st'
       /\ audioCache st' = <[TextSegment.id (cb_segment (c_resume c)) := pcm]> (audioCache st)
       /\ playbackState st' = PLAYING
       /\ playingSegmentId st' = playingSegmentId st
       /\ activeSourceRef st' = Some (length (sources st))
       /\ sources st' !! length (sources st) = Some (mkSource buf (Some (c_resume c)) Started)
       /\ length (sources st') = S (length (sources st)).
Proof.
  intros Hk Hp Hdec. split.
  - unfold stopPlayback. destruct (activeSourceRef st) as [a|] eqn:E; cbn.
    + destruct (stopActive_fields st) as (_ & _ & _ & Hc & _). auto.
    + auto.
  - assert (Hne : pcm <> "") by (intros ->; vm_compute in Hdec; discriminate).
    cbn [step]. unfold speechSettled. rewrite Hk, Hp. cbn [generateSpeechResult].
    rewrite decide_False by assumption.
    rewrite (startPlaying_decoded _ _ _ _ _ Hdec). eexists. split; [reflexivity|].
    set (st2 := setPlaybackState PLAYING _).
    destruct (stopActive_fields st2) as (Hps & Hid & Hca & _).
    cbn. rewrite Hps, Hid, Hca. cbn.
    split; [reflexivity|]. split; [reflexivity|]. split; [reflexivity|]. split; [reflexivity|].
    assert (Hlen : length (sources (stopActive st2)) = length (sources st))
      by (rewrite stopActive_length; reflexivity).
    split.
    + rewrite lookup_app_r by lia. rewrite Hlen, Nat.sub_diag. reflexivity.
    + rewrite length_app, Hlen. cbn. lia.
Qed.

(** C1 on the failing runs, both made through the page.
    (1) Play is clicked on the uncached [seg1] and Stop is clicked while
    the synthesis call is out: the session is Idle with no active
    segment and no source.  When the call resolves, the payload is
    cached under "seg-1", and playback starts all the same: the phase
    is Playing, a source has been created and started for the result,
    and since no segment is active the page shows no Stop button for it.
    (2) The same after Read All: the source started by the late result
    carries the chain callback, and when it reaches its end the chain
    goes on to [seg2] with a new synthesis call, although Stop was
    clicked. *)
Theorem stopped_call_still_plays :
  (pageRun 4 (stoppedWhileLoading ++ [SpeechSettled 0 (Some pcmKnown)]) initialState
     = Some (stateAfter (stoppedWhileLoading ++ [SpeechSettled 0 (Some pcmKnown)]))
   /\ c_pending <$> speechCalls (stateAfter stoppedWhileLoading) !! 0%nat = Some true
   /\ playbackState (stateAfter stoppedWhileLoading) = IDLE
   /\ playingSegmentId (stateAfter stoppedWhileLoading) = None
   /\ sources (stateAfter stoppedWhileLoading) = []
   /\ audioCache (stateAfter (stoppedWhileLoading ++ [SpeechSettled 0 (Some pcmKnown)])) !! "seg-1"
        = Some pcmKnown
   /\ playbackState (stateAfter (stoppedWhileLoading ++ [SpeechSettled 0 (Some pcmKnown)])) = PLAYING
   /\ playingSegmentId (stateAfter (stoppedWhileLoading ++ [SpeechSettled 0 (Some pcmKnown)])) = None
   /\ activeSourceRef (stateAfter (stoppedWhileLoading ++ [SpeechSettled 0 (Some pcmKnown)]))
        = Some 0%nat
   /\ (fun n => (status n, buffer n))
        <$> sources (stateAfter (stoppedWhileLoading ++ [SpeechSettled 0 (Some pcmKnown)])) !! 0%nat
      = (fun buf => (Started, buf)) <$> Decoder.decodePcm pcmKnown
   /\ showsStop (stateAfter (stoppedWhileLoading ++ [SpeechSettled 0 (Some pcmKnown)])) = false)
  /\ (pageRun 4 (stoppedChain ++ [SpeechSettled 0 (Some pcmKnown); SourceEnded 0]) initialState
        = Some (stateAfter (stoppedChain ++ [SpeechSettled 0 (Some pcmKnown); SourceEnded 0]))
      /\ c_pending <$> speechCalls (stateAfter stoppedChain) !! 0%nat = Some true
      /\ playbackState (stateAfter stoppedChain) = IDLE
      /\ playingSegmentId (stateAfter stoppedChain) = None
      /\ sources (stateAfter stoppedChain) = []
      /\ playbackState (stateAfter (stoppedChain ++ [SpeechSettled 0 (Some pcmKnown)])) = PLAYING
      /\ playingSegmentId (stateAfter (stoppedChain ++ [SpeechSettled 0 (Some pcmKnown)])) = None
      /\ (fun n => (status n, cb_autoPlayNext <$> onended n))
           <$> sources (stateAfter (stoppedChain ++ [SpeechSettled 0 (Some pcmKnown)]))
         = [(Started, Some true)]
      /\ playbackState (stateAfter (stoppedChain ++ [SpeechSettled 0 (Some pcmKnown); SourceEnded 0]))
         = LOADING_AUDIO
      /\ playingSegmentId
           (stateAfter (stoppedChain ++ [SpeechSettled 0 (Some pcmKnown); SourceEnded 0]))
         = Some "seg-2"
      /\ (fun c => (c_text c, c_pending c))
           <$> speechCalls
                 (stateAfter (stoppedChain ++ [SpeechSettled 0 (Some pcmKnown); SourceEnded 0]))
         = [("Reading is essential.", false); ("Knowledge is power.", true)]).
Proof.
  split.
  - repeat match goal with |- _ /\ _ => split end; vm_compute; reflexivity.
  - repeat match goal with |- _ /\ _ => split end; vm_compute; reflexivity.
Qed.

Lemma runOnEnded_chain rec r segment i st :
  NoDup (TextSegment.id <$> r_segments r) -> r_segments r !! i = Some segment ->
  runOnEnded rec (mkOnEnded r segment true) st =
    match r_segments r !! S i with
    | Some nextSegment => rec r nextSegment true st
    | None => Some (toIdle st)
    end.
Proof.
  intros Hnd Hi. unfold runOnEnded, playNextSegment. cbn.
  rewrite (findIndex_lookup _ _ _ Hnd Hi). reflexivity.
Qed.







(** C10.  A change of the selected voice clears the audio cache and also
    stops playback: the node the active handle referred to is stopped
    with its completion callback removed, the handle is cleared, the
    phase is Idle and no segment is active; in a reachable state no
    source is rendering afterwards. *)
Theorem voice_change_stops_playback (fuel : nat) (voice : string) (st : State) :
  voice <> selectedVoice st ->
  exists st',
    step fuel (SelectVoice voice) st = Some st'
    /\ selectedVoice st' = voice
    /\ audioCache st' = ∅
    /\ playbackState st' = IDLE
    /\ playingSegmentId st' = None
    /\ activeSourceRef st' = None
    /\ (forall h n, activeSourceRef st = Some h -> sources st !! h = Some n ->
          sources st' !! h = Some (stopNode n)
          /\ onended (stopNode n) = None /\ status (stopNode n) <> Started)
    /\ (reachable st -> quiet st').
Proof.
  intros Hv. exists (selectVoice voice st). unfold selectVoice.
  rewrite decide_False by assumption. cbn [step]. unfold selectVoice.
  rewrite decide_False by assumption.
  split; [reflexivity|].
  set (st0 := setAudioCache ∅ (setSelectedVoice voice st)).
  assert (Hsrc : sources (stopPlayback st0) = sources (stopActive st0)).
  { unfold stopPlayback, stopActive. destruct (activeSourceRef st0); reflexivity. }
  unfold stopPlayback at 1 2 3 4 5.
  destruct (stopActive_fields st0) as (_ & _ & Hca & _ & _ & _ & Hvo).
  split; [destruct (activeSourceRef st0); cbn; rewrite ?Hvo; reflexivity|].
  split; [destruct (activeSourceRef st0); cbn; rewrite ?Hca; reflexivity|].
  split; [reflexivity|]. split; [reflexivity|].
  split; [destruct (activeSourceRef st0) eqn:E; cbn; [reflexivity | exact E]|].
  split.
  - intros h n Ha Hn. rewrite Hsrc, stopActive_lookup. cbn.
    rewrite decide_True by assumption. rewrite Hn. cbn.
    split; [reflexivity|]. split; [reflexivity|].
    destruct (status n); discriminate.
  - intros Hreach. destruct (reachable_inv st Hreach) as [Heng _].
    assert (Heng0 : engineInv st0) by (eapply engineInv_frame; [| |exact Heng]; reflexivity).
    destruct (stopActive_quiet st0 Heng0) as [Hq _].
    intros h n. rewrite Hsrc. apply Hq.
Qed.

Lemma voice_change_stops_playback_witness :
  exists st',
    step 4 (SelectVoice "Puck")
      (stateAfter (analysed ++ [ClickPlayPause seg1; SpeechSettled 0 (Some pcmKnown)])) = Some st'
    /\ playbackState st' = IDLE /\ activeSourceRef st' = None /\ audioCache st' = ∅.
Proof.
  destruct (voice_change_stops_playback 4 "Puck"
              (stateAfter (analysed ++ [ClickPlayPause seg1; SpeechSettled 0 (Some pcmKnown)])))
    as (st' & Hstep & _ & Hc & Hp & _ & Ha & _).
  - vm_compute. discriminate.
  - exists st'. auto.
Defined.

(** ** Read All *)

Section Chain.
Variable fuel : nat.
Variable r : Render.
Variable synth : TextSegment.t -> string.
Hypothesis unique_ids : NoDup (TextSegment.id <$> r_segments r).
Hypothesis no_errors :
  forall s, s ∈ r_segments r ->
    is_Some (Decoder.decodePcm (payloadFor (r_audioCache r) synth s)).

Lemma decodePcm_nonempty (pcm : string) :
  is_Some (Decoder.decodePcm pcm) -> pcm <> "".
Proof. intros [buf H] ->. vm_compute in H. discriminate. Qed.

Lemma insert_snoc {A : Type} (l : list A) (x y : A) :
  <[length l := x]> (l ++ [y]) = l ++ [x].
Proof.
  rewrite <- (Nat.add_0_r (length l)). rewrite insert_app_r. reflexivity.
Qed.

Lemma ended_step (buf : list Q) (cb : OnEnded) (prefix : list SourceNode)
    (a : option nat) (st : State) :
  step (S fuel) (SourceEnded (length prefix))
      (setActiveSourceRef a (setSources (prefix ++ [mkSource buf (Some cb) Started]) st)) =
    runOnEnded (playSegment (S fuel)) cb
      (setActiveSourceRef None
         (setSources (prefix ++ [mkSource buf (Some cb) Ended]) st)).
Proof.
  cbn [step]. unfold sourceEnded. cbn [sources setActiveSourceRef setSources].
  rewrite list_lookup_middle by reflexivity. cbn [status onended buffer].
  rewrite insert_snoc. reflexivity.
Qed.

Lemma settled_step (calls : list SpeechCall) (text voice pcm : string) (cb : OnEnded)
    (st : State) :
  pcm <> "" ->
  step (S fuel) (SpeechSettled (length calls) (Some pcm))
      (setSpeechCalls (calls ++ [mkCall text voice cb true]) st) =
    startPlaying (playSegment (S fuel)) cb pcm
      (setAudioCache (<[TextSegment.id (cb_segment cb) := pcm]> (audioCache st))
         (setSpeechCalls (calls ++ [mkCall text voice cb false]) st)).
Proof.
  intros Hne. cbn [step]. unfold speechSettled. cbn [speechCalls setSpeechCalls].
  rewrite list_lookup_middle by reflexivity. cbn [c_pending generateSpeechResult].
  rewrite decide_False by assumption.
  cbn [c_resume cb_segment c_text c_voiceName].
  rewrite !insert_snoc. reflexivity.
Qed.

Lemma playSegment_hit f s a pcm st :
  cached (r_audioCache r) (TextSegment.id s) = Some pcm ->
  playSegment (S f) r s a st =
    startPlaying (playSegment f) (mkOnEnded r s a) pcm
      (setPlayingSegmentId (Some (TextSegment.id s)) st).
Proof. intros H. cbn [playSegment]. rewrite H. reflexivity. Qed.

Lemma playSegment_miss f s a st :
  cached (r_audioCache r) (TextSegment.id s) = None ->
  playSegment (S f) r s a st =
    Some (setSpeechCalls
            (speechCalls st ++
               [mkCall (TextSegment.original s) (r_selectedVoice r) (mkOnEnded r s a) true])
            (setPlaybackState LOADING_AUDIO
               (setPlayingSegmentId (Some (TextSegment.id s)) st))).
Proof. intros H. cbn [playSegment]. rewrite H. reflexivity. Qed.

(** One cycle: the call of [playSegment(s, true)] and the events that
    follow it, up to the callback of its source. *)
Lemma cycle (s : TextSegment.t) (st : State) (tail : list Event) :
  s ∈ r_segments r ->
  exists st1,
    playSegment (S fuel) r s true st = Some st1
    /\ run (S fuel)
         (chainEvents (r_audioCache r) synth [s] (length (sources st)) (length (speechCalls st))
            ++ tail) st1
       = (st2 ← runOnEnded (playSegment (S fuel)) (mkOnEnded r s true) (afterCycle r synth s st);
          run (S fuel) tail st2).
Proof.
  intros Hs. destruct (no_errors s Hs) as [buf Hbuf].
  pose proof (decodePcm_nonempty _ (ex_intro _ buf Hbuf)) as Hne.
  unfold afterCycle, playedNode. revert Hbuf Hne. unfold payloadFor.
  cbn [chainEvents].
  destruct (cached (r_audioCache r) (TextSegment.id s)) as [pcm|] eqn:Hc; intros Hbuf Hne.
  - rewrite (playSegment_hit _ _ _ _ _ Hc), (startPlaying_decoded _ _ _ _ _ Hbuf).
    eexists. split; [reflexivity|].
    cbn [app run]. rewrite Hbuf. cbn [default].
    rewrite bool_decide_eq_false_2 by discriminate.
    set (st0 := stopActive (setPlaybackState PLAYING
                  (setPlayingSegmentId (Some (TextSegment.id s)) st))).
    assert (Hsrc : sources st0 = sources (stopActive st))
      by (destruct st as [? ? ? ? ? ? ? [a|] ? ? ?]; reflexivity).
    assert (Hlen : length (sources st) = length (sources st0))
      by (rewrite Hsrc, stopActive_length; reflexivity).
    rewrite Hlen, ended_step.
    f_equal. subst st0. destruct st as [? ? ? ? ? ? ? [a|] ? ? ?]; reflexivity.
  - rewrite (playSegment_miss _ _ _ _ Hc).
    eexists. split; [reflexivity|].
    cbn [app run]. rewrite settled_step by assumption.
    rewrite (startPlaying_decoded _ _ _ _ _ Hbuf). cbn [mbind option_bind].
    rewrite Hbuf. cbn [default].
    rewrite bool_decide_eq_true_2 by reflexivity.
    match goal with
    | |- context [stopActive ?x] =>
        match x with
        | setPlaybackState PLAYING _ => set (st0 := stopActive x)
        end
    end.
    assert (Hsrc : sources st0 = sources (stopActive st))
      by (destruct st as [? ? ? ? ? ? ? [a|] ? ? ?]; reflexivity).
    assert (Hlen : length (sources st) = length (sources st0))
      by (rewrite Hsrc, stopActive_length; reflexivity).
    rewrite Hlen, ended_step.
    f_equal. subst st0. destruct st as [? ? ? ? ? ? ? [a|] ? ? ?]; reflexivity.
Qed.

Lemma chainEvents_split (s : TextSegment.t) (rest : list TextSegment.t) (st : State) :
  chainEvents (r_audioCache r) synth (s :: rest) (length (sources st)) (length (speechCalls st)) =
    chainEvents (r_audioCache r) synth [s] (length (sources st)) (length (speechCalls st))
      ++ chainEvents (r_audioCache r) synth rest
           (length (sources (afterCycle r synth s st)))
           (length (speechCalls (afterCycle r synth s st))).
Proof.
  unfold afterCycle. cbn [chainEvents sources speechCalls].
  rewrite length_app, stopActive_length, Nat.add_1_r.
  destruct (cached (r_audioCache r) (TextSegment.id s)) as [pcm|].
  - rewrite bool_decide_eq_false_2 by discriminate. reflexivity.
  - rewrite bool_decide_eq_true_2 by reflexivity.
    rewrite length_app, Nat.add_1_r. reflexivity.
Qed.

Lemma afterCycle_calls (s : TextSegment.t) (st : State) :
  speechCalls (afterCycle r synth s st) =
    speechCalls st
      ++ (settledCall r <$>
            filter (fun s' => cached (r_audioCache r) (TextSegment.id s') = None) [s]).
Proof.
  unfold afterCycle. cbn [speechCalls].
  destruct (cached (r_audioCache r) (TextSegment.id s)) as [pcm|] eqn:Hc.
  - rewrite bool_decide_eq_false_2 by discriminate.
    rewrite filter_cons_False by (rewrite Hc; discriminate).
    rewrite filter_nil, app_nil_r. reflexivity.
  - rewrite bool_decide_eq_true_2 by reflexivity.
    rewrite filter_cons_True by assumption. reflexivity.
Qed.

(** The chain from [playSegment(s, true)] to the end of the list. *)
Lemma chain_from (rest pre : list TextSegment.t) (s : TextSegment.t) (st : State) :
  r_segments r = pre ++ s :: rest ->
  exists st1 st',
    playSegment (S fuel) r s true st = Some st1
    /\ run (S fuel)
         (chainEvents (r_audioCache r) synth (s :: rest)
            (length (sources st)) (length (speechCalls st))) st1 = Some st'
    /\ playbackState st' = IDLE
    /\ playingSegmentId st' = None
    /\ activeSourceRef st' = None
    /\ sources st' = sources (stopActive st) ++ (playedNode r synth <$> s :: rest)
    /\ speechCalls st' =
         speechCalls st
           ++ (settledCall r <$>
                 filter (fun s' => cached (r_audioCache r) (TextSegment.id s') = None)
                   (s :: rest)).
Proof.
  revert pre s st. induction rest as [|s2 rest IH]; intros pre s st Hseg.
  - assert (Hi : r_segments r !! length pre = Some s)
      by (rewrite Hseg; apply list_lookup_middle; reflexivity).
    assert (Hs : s ∈ r_segments r) by (eapply list_elem_of_lookup_2; exact Hi).
    destruct (cycle s st [] Hs) as (st1 & Hplay & Hrun).
    rewrite app_nil_r in Hrun.
    rewrite (runOnEnded_chain _ _ _ _ _ unique_ids Hi) in Hrun.
    assert (Hnext : r_segments r !! S (length pre) = None).
    { rewrite Hseg. apply lookup_ge_None. rewrite length_app. cbn. lia. }
    rewrite Hnext in Hrun. cbn in Hrun.
    exists st1, (toIdle (afterCycle r synth s st)).
    split; [exact Hplay|]. split; [exact Hrun|].
    split; [reflexivity|]. split; [reflexivity|]. split; [reflexivity|].
    split; [reflexivity|].
    change (speechCalls (toIdle (afterCycle r synth s st)))
      with (speechCalls (afterCycle r synth s st)).
    apply afterCycle_calls.
  - assert (Hi : r_segments r !! length pre = Some s)
      by (rewrite Hseg; apply list_lookup_middle; reflexivity).
    assert (Hs : s ∈ r_segments r) by (eapply list_elem_of_lookup_2; exact Hi).
    assert (Hnext : r_segments r !! S (length pre) = Some s2).
    { rewrite Hseg. rewrite (lookup_app_r pre) by lia.
      replace (S (length pre) - length pre)%nat with 1%nat by lia. reflexivity. }
    destruct (IH (pre ++ [s]) s2 (afterCycle r synth s st)) as
      (st2 & st' & Hplay2 & Hrun2 & Hp & Hid & Ha & Hsrc & Hcalls).
    { rewrite Hseg, <- app_assoc. reflexivity. }
    destruct (cycle s st
                (chainEvents (r_audioCache r) synth (s2 :: rest)
                   (length (sources (afterCycle r synth s st)))
                   (length (speechCalls (afterCycle r synth s st)))) Hs)
      as (st1 & Hplay & Hrun).
    rewrite <- chainEvents_split in Hrun.
    rewrite (runOnEnded_chain _ _ _ _ _ unique_ids Hi), Hnext, Hplay2 in Hrun.
    cbn [mbind option_bind] in Hrun.
    exists st1, st'. split; [exact Hplay|]. split; [rewrite Hrun; exact Hrun2|].
    split; [exact Hp|]. split; [exact Hid|]. split; [exact Ha|]. split.
    + rewrite Hsrc. unfold afterCycle at 1. unfold stopActive at 1.
      cbn [activeSourceRef sources]. rewrite <- app_assoc. reflexivity.
    + rewrite Hcalls, afterCycle_calls, <- app_assoc, <- fmap_app.
      rewrite <- filter_app. reflexivity.
Qed.

End Chain.

(** A segment whose id names a property of [Object.prototype] is never
    synthesized: unless the cache owns an entry for the id, the lookup
    is a hit on the inherited value, which does not decode.  A list
    with such an id is not free of errors. *)
Lemma objectPrototype_undecodable (key v : string) :
  objectPrototype key = Some v -> v <> "" /\ Decoder.decodePcm v = None.
Proof.
  unfold objectPrototype. destruct (decide (key = "__proto__")) as [->|_].
  { intros [= <-]. split; [discriminate | vm_compute; reflexivity]. }
  destruct (decide (key = "constructor")) as [->|_].
  { intros [= <-]. split; [vm_compute; discriminate | vm_compute; reflexivity]. }
  destruct (bool_decide _) eqn:E; [|discriminate].
  apply bool_decide_eq_true in E. intros [= <-].
  repeat (apply elem_of_cons in E as [->|E];
          [split; [vm_compute; discriminate | vm_compute; reflexivity]|]).
  inversion E.
Qed.

Lemma inherited_id_is_an_error (cache : gmap string string) (synth : TextSegment.t -> string)
    (s : TextSegment.t) (v : string) :
  cache !! TextSegment.id s = None -> objectPrototype (TextSegment.id s) = Some v ->
  cached cache (TextSegment.id s) = Some v
  /\ Decoder.decodePcm (payloadFor cache synth s) = None.
Proof.
  intros Hown Hproto.
  assert (Hc : cached cache (TextSegment.id s) = Some v)
    by (unfold cached; rewrite Hown; exact Hproto).
  split; [exact Hc|]. unfold payloadFor. rewrite Hc.
  apply (objectPrototype_undecodable _ _ Hproto).
Qed.

(** C8.  With unique segment ids and no errors (every payload, cached
    or synthesized, decodes; this leaves out an id that names a property
    of [Object.prototype]), Read All followed by nothing but the
    synthesis results and the natural ends of its own sources runs one
    cycle per segment of the list, in list order from the first: one
    cache lookup each, one synthesis call for each segment that is not in
    the cache, and one source per segment, decoded from that segment's
    payload and played to its end; the session then is Idle with no
    active segment and no active source.  On an empty list Read All
    changes nothing.  In a list without errors no segment that has to
    be synthesized carries an id that names a property of
    [Object.prototype]. *)
Theorem playAll_cycles (fuel : nat) (synth : TextSegment.t -> string) (st : State) :
  NoDup (TextSegment.id <$> segments st) ->
  (forall s, s ∈ segments st ->
     is_Some (Decoder.decodePcm (payloadFor (audioCache st) synth s))) ->
  (segments st = [] -> step (S fuel) ClickPlayAll st = Some st)
  /\ (segments st <> [] ->
      exists st',
        run (S fuel)
          (ClickPlayAll ::
             chainEvents (audioCache st) synth (segments st)
               (length (sources st)) (length (speechCalls st))) st = Some st'
        /\ playbackState st' = IDLE
        /\ playingSegmentId st' = None
        /\ activeSourceRef st' = None
        /\ sources st' =
             sources (stopActive st) ++ (playedNode (render st) synth <$> segments st)
        /\ length (sources st') = (length (sources st) + length (segments st))%nat
        /\ speechCalls st' =
             speechCalls st
               ++ (settledCall (render st) <$>
                     filter (fun s => cached (audioCache st) (TextSegment.id s) = None)
                       (segments st)))
  /\ (forall s, s ∈ segments st -> audioCache st !! TextSegment.id s = None ->
        objectPrototype (TextSegment.id s) = None).
Proof.
  intros Hnd Hok. split; [|split]; cycle 2.
  { intros s Hs Hown. destruct (objectPrototype (TextSegment.id s)) as [v|] eqn:E; [|reflexivity].
    destruct (inherited_id_is_an_error _ synth s v Hown E) as [_ Hd].
    destruct (Hok s Hs) as [buf Hbuf]. congruence. }
  - intros Hnil. cbn [step]. unfold handlePlayAll. rewrite Hnil. reflexivity.
  - intros Hne. destruct (segments st) as [|first rest] eqn:Hseg; [congruence|].
    destruct (chain_from fuel (render st) synth) with (rest := rest) (pre := @nil TextSegment.t)
      (s := first) (st := st)
      as (st1 & st' & Hplay & Hrun & Hp & Hid & Ha & Hsrc & Hcalls).
    + cbn [render r_segments]. rewrite Hseg. exact Hnd.
    + cbn [render r_segments r_audioCache]. rewrite Hseg. exact Hok.
    + cbn [render r_segments]. rewrite Hseg. reflexivity.
    + exists st'. cbn [render r_audioCache] in Hrun, Hcalls.
      split.
      { cbn [run step]. unfold handlePlayAll. rewrite Hseg, Hplay. exact Hrun. }
      split; [exact Hp|]. split; [exact Hid|]. split; [exact Ha|].
      split; [exact Hsrc|]. split; [|exact Hcalls].
      rewrite Hsrc, length_app, stopActive_length, length_fmap. reflexivity.
Qed.

Lemma playAll_cycles_witness :
  exists st',
    run 4 (ClickPlayAll ::
             chainEvents (audioCache (stateAfter analysed)) (fun _ => pcmKnown)
               (segments (stateAfter analysed))
               (length (sources (stateAfter analysed)))
               (length (speechCalls (stateAfter analysed)))) (stateAfter analysed) = Some st'
    /\ playbackState st' = IDLE
    /\ length (sources st') =
         (length (sources (stateAfter analysed)) + length (segments (stateAfter analysed)))%nat.
Proof.
  destruct (playAll_cycles 3 (fun _ => pcmKnown) (stateAfter analysed)) as (_ & Hrun & _).
  - apply (bool_decide_unpack _). vm_compute. exact I.
  - intros s Hs.
    assert (Hsegs : segments (stateAfter analysed) = [seg1; seg2]) by (vm_compute; reflexivity).
    rewrite Hsegs in Hs.
    apply elem_of_cons in Hs as [->|Hs]; [vm_compute; eexists; reflexivity|].
    apply elem_of_cons in Hs as [->|Hs]; [vm_compute; eexists; reflexivity|].
    inversion Hs.
  - destruct Hrun as (st' & Hr & Hp & _ & _ & _ & Hl & _).
    + vm_compute. discriminate.
    + exists st'. split; [exact Hr|]. split; [exact Hp | exact Hl].
Defined.

(** ** The audio cache *)

Section CacheFacts.

Lemma runOnEnded_cache rec cb st st' :
  keepsCache rec -> runOnEnded rec cb st = Some st' ->
  audioCache st' = audioCache st /\ selectedVoice st' = selectedVoice st.
Proof.
  intros Hrec. unfold runOnEnded, playNextSegment.
  destruct (cb_autoPlayNext cb).
  - destruct (findIndex _ _) as [i|].
    + destruct (r_segments (cb_render cb) !! S i) as [next|].
      * apply Hrec.
      * intros [= <-]. split; reflexivity.
    + intros [= <-]. split; reflexivity.
  - intros [= <-]. split; reflexivity.
Qed.

Lemma startPlaying_cache rec cb pcm st st' :
  keepsCache rec -> startPlaying rec cb pcm st = Some st' ->
  audioCache st' = audioCache st /\ selectedVoice st' = selectedVoice st.
Proof.
  intros Hrec. unfold startPlaying, playPcmData.
  destruct (stopActive_fields (setPlaybackState PLAYING st)) as (_ & _ & Hc & _ & _ & _ & Hv).
  destruct (Decoder.decodePcm pcm) as [buf|].
  - intros [= <-]. cbn. rewrite Hc, Hv. split; reflexivity.
  - intros H. apply (runOnEnded_cache _ _ _ _ Hrec) in H as [H1 H2].
    rewrite H1, H2, Hc, Hv. split; reflexivity.
Qed.

Lemma playSegment_cache fuel : keepsCache (playSegment fuel).
Proof.
  induction fuel as [|fuel IH]; intros r s a st st'; cbn [playSegment]; [discriminate|].
  destruct (cached _ _) as [pcm|].
  - intros H. apply (startPlaying_cache _ _ _ _ _ IH) in H. exact H.
  - intros [= <-]. split; reflexivity.
Qed.

(** A play request made by the user on a segment found in the cache
    issues no synthesis call. *)
Lemma cached_click_no_synthesis fuel segment pcm st st' :
  cached (audioCache st) (TextSegment.id segment) = Some pcm ->
  step fuel (ClickPlayPause segment) st = Some st' ->
  speechCalls st' = speechCalls st.
Proof.
  intros Hc. cbn [step]. unfold handlePlayPause. destruct (decide _).
  - intros [= <-]. unfold stopPlayback.
    destruct (stopActive_fields st) as (_ & _ & _ & H & _).
    destruct (activeSourceRef st); cbn; [exact H | reflexivity].
  - destruct fuel as [|fuel]; [discriminate|]. cbn [playSegment render r_audioCache].
    rewrite Hc. unfold startPlaying, playPcmData, runOnEnded. cbn [cb_autoPlayNext].
    match goal with |- context [stopActive ?x] => 
      destruct (stopActive_fields x) as (_ & _ & _ & H & _) end.
    destruct (Decoder.decodePcm pcm); intros [= <-]; cbn; rewrite H; reflexivity.
Qed.

End CacheFacts.

Lemma stopPlayback_cache (st : State) :
  audioCache (stopPlayback st) = audioCache st.
Proof.
  unfold stopPlayback. destruct (stopActive_fields st) as (_ & _ & H & _).
  destruct (activeSourceRef st); cbn; [exact H | reflexivity].
Qed.

(** An entry of the cache stays usable over every task except a voice
    change, a new analysis and Clear. *)
Lemma step_keeps_cached fuel ev st st' key pcm :
  step fuel ev st = Some st' ->
  cached (audioCache st) key = Some pcm ->
  (forall v, ev <> SelectVoice v) -> ev <> ClickProcess -> ev <> ClickClear ->
  is_Some (cached (audioCache st') key).
Proof.
  intros Hstep Hc Hv Hp Hcl.
  assert (Hsame : audioCache st' = audioCache st -> is_Some (cached (audioCache st') key))
    by (intros ->; rewrite Hc; eexists; reflexivity).
  destruct ev; cbn [step] in Hstep; try congruence.
  - injection Hstep as <-. apply Hsame. reflexivity.
  - injection Hstep as <-. apply Hsame. unfold analysisSettled.
    destruct (analysesPending st); [reflexivity|]. destruct result; reflexivity.
  - apply Hsame. unfold handlePlayPause in Hstep. destruct (decide _).
    + injection Hstep as <-. apply stopPlayback_cache.
    + apply playSegment_cache in Hstep as [H _]. exact H.
  - apply Hsame. unfold handlePlayAll in Hstep. destruct (segments st).
    + injection Hstep as <-. reflexivity.
    + apply playSegment_cache in Hstep as [H _]. exact H.
  - injection Hstep as <-. apply Hsame. apply stopPlayback_cache.
  - unfold speechSettled in Hstep.
    destruct (speechCalls st !! call) as [c|]; [|injection Hstep as <-; apply Hsame; reflexivity].
    destruct (c_pending c); [|injection Hstep as <-; apply Hsame; reflexivity].
    unfold generateSpeechResult in Hstep. destruct audioData as [data|].
    + destruct (decide (data = "")) as [->|Hne].
      * injection Hstep as <-. apply Hsame. reflexivity.
      * apply startPlaying_cache in Hstep as [H _]; [|apply playSegment_cache].
        rewrite H. cbn. unfold cached in Hc |- *.
        destruct (decide (TextSegment.id (cb_segment (c_resume c)) = key)) as [->|Hk].
        -- rewrite lookup_insert_eq. rewrite decide_False by assumption. eexists; reflexivity.
        -- rewrite lookup_insert_ne by assumption.
           destruct (audioCache st !! key) as [p|]; [|rewrite Hc; eexists; reflexivity].
           destruct (decide (p = "")); [discriminate | eexists; reflexivity].
    + injection Hstep as <-. apply Hsame. reflexivity.
  - unfold sourceEnded in Hstep.
    destruct (sources st !! handle) as [n|]; [|injection Hstep as <-; apply Hsame; reflexivity].
    destruct (status n); try (injection Hstep as <-; apply Hsame; reflexivity);
      (destruct (onended n) as [cb|];
       [apply runOnEnded_cache in Hstep as [H _]; [|apply playSegment_cache];
        apply Hsame; rewrite H; reflexivity
       |injection Hstep as <-; apply Hsame; reflexivity]).
Qed.

(** Both invalidation paths empty the cache at once. *)
Lemma invalidation_clears_cache (voice : string) (st : State) :
  (voice <> selectedVoice st -> audioCache (selectVoice voice st) = ∅)
  /\ (trimIsEmpty (inputText st) = false -> audioCache (handleProcess st) = ∅).
Proof.
  split.
  - intros Hv. unfold selectVoice. rewrite decide_False by assumption.
    rewrite stopPlayback_cache. reflexivity.
  - intros Ht. unfold handleProcess. rewrite Ht. reflexivity.
Qed.

(** C6 on the failing run.  Read All is clicked with an empty cache;
    while its first call is out the user plays [seg2], which is
    synthesized, cached and played to its end under the same voice and
    segment list.  When the chain then reaches [seg2], its
    [playSegment] looks the id up in the cache of the render in which
    Read All was clicked, misses, and calls the synthesis service for
    [seg2] again, although the cache holds its payload. *)
Theorem chain_resynthesizes_cached_segment :
  run 4 playedDuringChain initialState = Some (stateAfter playedDuringChain)
  /\ cached (audioCache (stateAfter playedDuringChain)) "seg-2" = Some pcmKnown
  /\ status <$> sources (stateAfter playedDuringChain) !! 0%nat = Some Ended
  /\ (fun c => (c_text c, c_voiceName c, c_pending c))
       <$> speechCalls (stateAfter playedDuringChain)
     = [("Reading is essential.", "Kore", false); ("Knowledge is power.", "Kore", false)]
  /\ step 4 (SourceEnded 1) (stateAfter playedDuringChain)
     = Some (stateAfter (playedDuringChain ++ [SourceEnded 1]))
  /\ (fun c => (c_text c, c_voiceName c, c_pending c))
       <$> speechCalls (stateAfter (playedDuringChain ++ [SourceEnded 1]))
     = [("Reading is essential.", "Kore", false); ("Knowledge is power.", "Kore", false);
        ("Knowledge is power.", "Kore", true)]
  /\ cached (audioCache (stateAfter (playedDuringChain ++ [SourceEnded 1]))) "seg-2"
     = Some pcmKnown
  /\ playbackState (stateAfter (playedDuringChain ++ [SourceEnded 1])) = LOADING_AUDIO
  /\ selectedVoice (stateAfter (playedDuringChain ++ [SourceEnded 1])) = "Kore"
  /\ segments (stateAfter (playedDuringChain ++ [SourceEnded 1])) = [seg1; seg2].
Proof.
  repeat (split; [vm_compute; reflexivity|]). vm_compute. reflexivity.
Qed.

(** C7 on the failing runs.  The voice change empties the cache, but
    (1) a call that was in flight, made for the old voice, still stores
    its payload when it resolves, and the next click on [seg1] plays
    that payload without a synthesis call for the new voice; and (2) a
    chain resumed by such a call looks [seg2] up in the cache of its own
    render, finds the payload cached before the change, and plays it
    without a synthesis call.  Likewise (3) a new analysis empties the
    cache, but a call in flight for a segment of the old list stores its
    payload under its id afterwards, and a click on the segment of the
    new list that carries the same id plays the audio of the old text
    without a synthesis call. *)
Theorem stale_payload_after_voice_change :
  (run 4 voiceChangedInFlight initialState = Some (stateAfter voiceChangedInFlight)
   /\ audioCache (stateAfter (analysed ++ [ClickPlayPause seg1; ClickStop; ClickPlayPause seg1;
                                            SpeechSettled 0 (Some pcmKnown)])) !! "seg-1"
      = Some pcmKnown
   /\ audioCache (stateAfter (analysed ++ [ClickPlayPause seg1; ClickStop; ClickPlayPause seg1;
                                            SpeechSettled 0 (Some pcmKnown);
                                            SelectVoice "Puck"])) = ∅
   /\ selectedVoice (stateAfter voiceChangedInFlight) = "Puck"
   /\ playbackState (stateAfter voiceChangedInFlight) = IDLE
   /\ step 4 (ClickPlayPause seg1) (stateAfter voiceChangedInFlight)
      = Some (stateAfter (voiceChangedInFlight ++ [ClickPlayPause seg1]))
   /\ (fun c => (c_text c, c_voiceName c, c_pending c))
        <$> speechCalls (stateAfter (voiceChangedInFlight ++ [ClickPlayPause seg1]))
      = [("Reading is essential.", "Kore", false); ("Reading is essential.", "Kore", false)]
   /\ playbackState (stateAfter (voiceChangedInFlight ++ [ClickPlayPause seg1])) = PLAYING
   /\ (fun n => (status n, buffer n))
        <$> sources (stateAfter (voiceChangedInFlight ++ [ClickPlayPause seg1])) !! 2%nat
      = (fun buf => (Started, buf)) <$> Decoder.decodePcm pcmSilence)
  /\ (run 4 voiceChangedDuringChain initialState = Some (stateAfter voiceChangedDuringChain)
      /\ audioCache (stateAfter (analysed ++ [ClickPlayPause seg2; SpeechSettled 0 (Some pcmKnown);
                                               SourceEnded 0; ClickPlayAll])) !! "seg-2"
         = Some pcmKnown
      /\ audioCache (stateAfter voiceChangedDuringChain) !! "seg-2" = None
      /\ selectedVoice (stateAfter voiceChangedDuringChain) = "Puck"
      /\ step 4 (SourceEnded 1) (stateAfter voiceChangedDuringChain)
         = Some (stateAfter (voiceChangedDuringChain ++ [SourceEnded 1]))
      /\ (fun c => (c_text c, c_voiceName c, c_pending c))
           <$> speechCalls (stateAfter (voiceChangedDuringChain ++ [SourceEnded 1]))
         = [("Knowledge is power.", "Kore", false); ("Reading is essential.", "Kore", false)]
      /\ playingSegmentId (stateAfter (voiceChangedDuringChain ++ [SourceEnded 1])) = Some "seg-2"
      /\ (fun n => (status n, buffer n))
           <$> sources (stateAfter (voiceChangedDuringChain ++ [SourceEnded 1])) !! 2%nat
         = (fun buf => (Started, buf)) <$> Decoder.decodePcm pcmKnown)
  /\ (run 4 analysedInFlight initialState = Some (stateAfter analysedInFlight)
      /\ audioCache (stateAfter (analysed ++ [ClickPlayPause seg1; SetInputText "Time is money.";
                                               ClickProcess])) = ∅
      /\ segments (stateAfter analysedInFlight) = [seg1']
      /\ audioCache (stateAfter analysedInFlight) !! "seg-1" = Some pcmKnown
      /\ playbackState (stateAfter analysedInFlight) = IDLE
      /\ step 4 (ClickPlayPause seg1') (stateAfter analysedInFlight)
         = Some (stateAfter (analysedInFlight ++ [ClickPlayPause seg1']))
      /\ (fun c => (c_text c, c_voiceName c, c_pending c))
           <$> speechCalls (stateAfter (analysedInFlight ++ [ClickPlayPause seg1']))
         = [("Reading is essential.", "Kore", false)]
      /\ (fun n => (status n, buffer n))
           <$> sources (stateAfter (analysedInFlight ++ [ClickPlayPause seg1'])) !! 1%nat
         = (fun buf => (Started, buf)) <$> Decoder.decodePcm pcmKnown).
Proof.
  split; [|split].
  - repeat (split; [vm_compute; reflexivity|]). vm_compute. reflexivity.
  - repeat (split; [vm_compute; reflexivity|]). vm_compute. reflexivity.
  - repeat (split; [vm_compute; reflexivity|]). vm_compute. reflexivity.
Qed.

(** * Further properties of the code *)

(** ** [stopPlayback] *)

(** X1.  [stopPlayback] is idempotent, and it leaves a state as it is
    exactly when there is no active handle, the phase is Idle and no
    segment is active. *)
Theorem stopPlayback_idempotent (st : State) :
  stopPlayback (stopPlayback st) = stopPlayback st
  /\ (stopPlayback st = st <->
      activeSourceRef st = None /\ playbackState st = IDLE /\ playingSegmentId st = None).
Proof.
  split.
  - destruct st as [? ? ? ? ? ? ? [a|] ? ? ?]; reflexivity.
  - split.
    + intros H.
      assert (Ha : activeSourceRef (stopPlayback st) = None)
        by (unfold stopPlayback; destruct (activeSourceRef st) eqn:E; cbn; [reflexivity | exact E]).
      rewrite H in Ha. split; [exact Ha|].
      split; [rewrite <- H | rewrite <- H]; reflexivity.
    + intros (Ha & Hp & Hi). destruct st as [? ? ? ? ? ? ? a ? ? ?]; cbn in *.
      subst. reflexivity.
Qed.

(** ** [decodeAudioData] loses nothing *)

Lemma int16_inj (lo hi lo' hi' : byte) :
  Decoder.int16 lo hi = Decoder.int16 lo' hi' -> lo = lo' /\ hi = hi'.
Proof.
  unfold Decoder.int16. intros H.
  pose proof (Byte.to_N_bounded lo). pose proof (Byte.to_N_bounded hi).
  pose proof (Byte.to_N_bounded lo'). pose proof (Byte.to_N_bounded hi').
  assert (Hn : Byte.to_N lo = Byte.to_N lo' /\ Byte.to_N hi = Byte.to_N hi').
  { destruct (Z.ltb_spec (Z.of_N (Byte.to_N lo) + 256 * Z.of_N (Byte.to_N hi)) 32768);
      destruct (Z.ltb_spec (Z.of_N (Byte.to_N lo') + 256 * Z.of_N (Byte.to_N hi')) 32768);
      lia. }
  destruct Hn as [Hl Hh].
  pose proof (Byte.of_to_N lo) as E1. pose proof (Byte.of_to_N lo') as E2.
  pose proof (Byte.of_to_N hi) as E3. pose proof (Byte.of_to_N hi') as E4.
  rewrite Hl in E1. rewrite Hh in E3. split; congruence.
Qed.

Lemma sample_inj (v v' : Z) :
  (inject_Z v / 32768 == inject_Z v' / 32768)%Q -> v = v'.
Proof. unfold Qeq, Qdiv, Qmult, Qinv, inject_Z. simpl. lia. Qed.

Lemma int16Array_inj (data data' : list byte) :
  Nat.even (length data) = true -> Nat.even (length data') = true ->
  Decoder.int16Array data = Decoder.int16Array data' -> data = data'.
Proof.
  revert data'. induction data as [|a|a b l IH] using pair_list_ind; intros data' He He' H.
  - destruct data' as [|a' [|b' l']]; [reflexivity | discriminate | discriminate].
  - discriminate.
  - destruct data' as [|a' [|b' l']]; [discriminate | discriminate |].
    cbn [Decoder.int16Array] in H. injection H as H1 H2.
    apply int16_inj in H1 as [-> ->]. f_equal. f_equal.
    apply IH; assumption.
Qed.

(** X2.  The conversion to samples is lossless: two byte sequences that
    decode to sample buffers equal as rational numbers are the same
    bytes. *)
Theorem decodeAudioData_lossless (data data' : list byte) (out out' : list Q) :
  Decoder.decodeAudioData data = Some out ->
  Decoder.decodeAudioData data' = Some out' ->
  Forall2 Qeq out out' ->
  data = data'.
Proof.
  unfold Decoder.decodeAudioData.
  destruct (Nat.even (length data)) eqn:He; [|discriminate].
  destruct (Nat.even (length data')) eqn:He'; [|discriminate]. cbn [negb].
  destruct (length (Decoder.int16Array data) =? 0)%nat; [discriminate|].
  destruct (length (Decoder.int16Array data') =? 0)%nat; [discriminate|].
  intros [= <-] [= <-] H.
  apply int16Array_inj; [assumption | assumption |].
  revert H. generalize (Decoder.int16Array data) (Decoder.int16Array data').
  induction l as [|v l IH]; intros [|v' l'] H; inversion H; subst; [reflexivity|].
  f_equal; [apply sample_inj; assumption | apply IH; assumption].
Qed.

Lemma decodeAudioData_lossless_witness :
  [x00; x40; xff; x7f]%byte = [x00; x40; xff; x7f]%byte.
Proof.
  apply (decodeAudioData_lossless [x00; x40; xff; x7f]%byte [x00; x40; xff; x7f]%byte
           [16384 # 32768; 32767 # 32768]%Q [16384 # 32768; 32767 # 32768]%Q).
  - vm_compute. reflexivity.
  - vm_compute. reflexivity.
  - repeat constructor.
Defined.

(** ** [playNextSegment] and [findIndex] *)

Lemma findIndex_first (currentId : string) (pre rest : list TextSegment.t) (s : TextSegment.t) :
  TextSegment.id s = currentId -> currentId ∉ (TextSegment.id <$> pre) ->
  findIndex currentId (pre ++ s :: rest) = Some (length pre).
Proof.
  intros Hs. induction pre as [|x pre IH]; intros Hpre; cbn [findIndex app length].
  - rewrite decide_True by assumption. reflexivity.
  - rewrite fmap_cons in Hpre. apply not_elem_of_cons in Hpre as [Hx Hpre].
    rewrite decide_False by congruence. rewrite (IH Hpre). reflexivity.
Qed.

Lemma findIndex_missing (currentId : string) (l : list TextSegment.t) :
  currentId ∉ (TextSegment.id <$> l) -> findIndex currentId l = None.
Proof.
  induction l as [|x l IH]; intros Hl; cbn [findIndex]; [reflexivity|].
  rewrite fmap_cons in Hl. apply not_elem_of_cons in Hl as [Hx Hl].
  rewrite decide_False by congruence. rewrite (IH Hl). reflexivity.
Qed.

(** X3.  [playNextSegment] continues after the first segment of its
    render that carries the current id: it plays the segment that
    follows that one, whatever comes later in the list, and it goes to
    Idle with no active segment when that one is the last or when no
    segment carries the id. *)
Theorem playNextSegment_after_first_match
    (play : TextSegment.t -> State -> option State) (r : Render) (currentId : string)
    (st : State) :
  (currentId ∉ (TextSegment.id <$> r_segments r) ->
     playNextSegment play r currentId st = Some (toIdle st))
  /\ (forall pre s rest,
        r_segments r = pre ++ s :: rest ->
        TextSegment.id s = currentId -> currentId ∉ (TextSegment.id <$> pre) ->
        playNextSegment play r currentId st =
          match rest with
          | nextSegment :: _ => play nextSegment st
          | [] => Some (toIdle st)
          end).
Proof.
  split.
  - intros H. unfold playNextSegment. rewrite (findIndex_missing _ _ H). reflexivity.
  - intros pre s rest Hseg Hs Hpre. unfold playNextSegment.
    rewrite Hseg, (findIndex_first _ _ _ _ Hs Hpre).
    rewrite (lookup_app_r pre) by lia.
    replace (S (length pre) - length pre)%nat with 1%nat by lia.
    destruct rest; reflexivity.
Qed.

Lemma playNextSegment_after_first_match_witness :
  playNextSegment (fun s st => Some (setPlayingSegmentId (Some (TextSegment.original s)) st))
      (mkRender [seg1; seg2; seg1'; seg2] ∅ "Kore") "seg-1" initialState
    = Some (setPlayingSegmentId (Some "Knowledge is power.") initialState).
Proof.
  destruct (playNextSegment_after_first_match
              (fun s st => Some (setPlayingSegmentId (Some (TextSegment.original s)) st))
              (mkRender [seg1; seg2; seg1'; seg2] ∅ "Kore") "seg-1" initialState) as [_ H].
  apply (H [] seg1 [seg2; seg1'; seg2]).
  - reflexivity.
  - reflexivity.
  - cbn. apply not_elem_of_nil.
Defined.

(** ** Failures *)

(** X4.  When synthesis fails for a call in flight (the request is
    rejected, or it returns no audio data or an empty string), the call
    is settled, nothing is cached, no source is created or stopped, and
    the session goes to Idle with no active segment, in chain mode too:
    no further synthesis call is made. *)
Theorem synthesis_failure_idles
    (fuel k : nat) (st : State) (c : SpeechCall) (audioData : option string) :
  speechCalls st !! k = Some c -> c_pending c = true ->
  audioData = None \/ audioData = Some "" ->
  exists st',
    step fuel (SpeechSettled k audioData) st = Some st'
    /\ playbackState st' = IDLE
    /\ playingSegmentId st' = None
    /\ audioCache st' = audioCache st
    /\ sources st' = sources st
    /\ activeSourceRef st' = activeSourceRef st
    /\ speechCalls st' = <[k := mkCall (c_text c) (c_voiceName c) (c_resume c) false]> (speechCalls st).
Proof.
  intros Hk Hp Hd. cbn [step]. unfold speechSettled. rewrite Hk, Hp.
  assert (Hr : generateSpeechResult audioData = None) by (destruct Hd as [->| ->]; reflexivity).
  rewrite Hr. eexists. split; [reflexivity|]. repeat split; reflexivity.
Qed.

Lemma synthesis_failure_idles_witness :
  exists st',
    step 4 (SpeechSettled 0 (Some "")) (stateAfter (analysed ++ [ClickPlayAll])) = Some st'
    /\ playbackState st' = IDLE
    /\ length (speechCalls st') = 1%nat.
Proof.
  destruct (synthesis_failure_idles 4 0 (stateAfter (analysed ++ [ClickPlayAll]))
              (mkCall "Reading is essential." "Kore"
                 (mkOnEnded (mkRender [seg1; seg2] ∅ "Kore") seg1 true) true) (Some ""))
    as (st' & Hstep & Hp & _ & _ & _ & _ & Hcalls).
  - vm_compute. reflexivity.
  - reflexivity.
  - right. reflexivity.
  - exists st'. split; [exact Hstep|]. split; [exact Hp|].
    rewrite Hcalls, length_insert. vm_compute. reflexivity.
Defined.

(** ** One call, or one source, per task *)

Lemma outcome_neutral (st st0 st' : State) :
  speechCalls st0 = speechCalls st -> length (sources st0) = length (sources st) ->
  outcome st0 st' -> outcome st st'.
Proof. unfold outcome. intros -> ->. auto. Qed.

Lemma outcome_toIdle (st : State) : outcome st (toIdle st).
Proof. left. repeat split; reflexivity. Qed.

Lemma runOnEnded_outcome rec cb st st' :
  settles rec -> runOnEnded rec cb st = Some st' -> outcome st st'.
Proof.
  intros Hrec. unfold runOnEnded, playNextSegment.
  destruct (cb_autoPlayNext cb).
  - destruct (findIndex _ _) as [i|].
    + destruct (r_segments (cb_render cb) !! S i) as [next|].
      * apply Hrec.
      * intros [= <-]. apply outcome_toIdle.
    + intros [= <-]. apply outcome_toIdle.
  - intros [= <-]. apply outcome_toIdle.
Qed.

Lemma startPlaying_outcome rec cb pcm st st' :
  settles rec -> startPlaying rec cb pcm st = Some st' -> outcome st st'.
Proof.
  intros Hrec. unfold startPlaying, playPcmData.
  set (st0 := stopActive (setPlaybackState PLAYING st)).
  assert (Hc : speechCalls st0 = speechCalls st)
    by (destruct (stopActive_fields (setPlaybackState PLAYING st)) as (_ & _ & _ & H & _); exact H).
  assert (Hl : length (sources st0) = length (sources st))
    by (unfold st0; rewrite stopActive_length; reflexivity).
  assert (Hp : playbackState st0 = PLAYING)
    by (destruct (stopActive_fields (setPlaybackState PLAYING st)) as (H & _); exact H).
  destruct (Decoder.decodePcm pcm) as [buf|].
  - intros [= <-]. right. right. cbn. rewrite length_app, Hl. cbn.
    split; [exact Hc|]. split; [lia|]. split; [exact Hp | reflexivity].
  - intros H. apply (outcome_neutral st st0); [exact Hc | exact Hl |].
    eapply runOnEnded_outcome; eassumption.
Qed.

Lemma playSegment_settles fuel : settles (playSegment fuel).
Proof.
  induction fuel as [|fuel IH]; intros r s a st st'; cbn [playSegment]; [discriminate|].
  destruct (cached _ _) as [pcm|].
  - intros H. apply startPlaying_outcome in H; [|exact IH].
    eapply outcome_neutral; [| |exact H]; reflexivity.
  - intros [= <-]. right. left. eexists. repeat split; reflexivity.
Qed.

Lemma stopPlayback_calls (st : State) : speechCalls (stopPlayback st) = speechCalls st.
Proof.
  unfold stopPlayback. destruct (stopActive_fields st) as (_ & _ & _ & H & _).
  destruct (activeSourceRef st); cbn; [exact H | reflexivity].
Qed.

Lemma handleProcess_keeps (st : State) :
  speechCalls (handleProcess st) = speechCalls st
  /\ length (sources (handleProcess st)) = length (sources st).
Proof.
  unfold handleProcess. destruct (trimIsEmpty _); [split; reflexivity|].
  cbn [speechCalls sources setAnalysesPending setAudioCache setSegments setIsProcessing].
  split; [apply stopPlayback_calls | apply stopPlayback_length].
Qed.

Lemma handleClear_keeps (st : State) :
  speechCalls (handleClear st) = speechCalls st
  /\ length (sources (handleClear st)) = length (sources st).
Proof.
  unfold handleClear. cbn [speechCalls sources setAudioCache setSegments setInputText].
  split; [apply stopPlayback_calls | apply stopPlayback_length].
Qed.

Lemma selectVoice_keeps (voice : string) (st : State) :
  speechCalls (selectVoice voice st) = speechCalls st
  /\ length (sources (selectVoice voice st)) = length (sources st).
Proof.
  unfold selectVoice. destruct (decide _); [split; reflexivity|].
  split; [rewrite stopPlayback_calls | rewrite stopPlayback_length]; reflexivity.
Qed.

(** X6.  A task makes at most one synthesis call and starts at most one
    source, and never both: either neither is added; or one call is
    added, it is the newest and in flight, and the phase is
    LoadingAudio; or one source is added, it is the active one, and the
    phase is Playing. *)
Theorem step_one_call_or_one_source (fuel : nat) (ev : Event) (st st' : State) :
  step fuel ev st = Some st' ->
  (length (speechCalls st') = length (speechCalls st)
   /\ length (sources st') = length (sources st))
  \/ (length (speechCalls st') = S (length (speechCalls st))
      /\ length (sources st') = length (sources st)
      /\ playbackState st' = LOADING_AUDIO
      /\ exists c, last (speechCalls st') = Some c /\ c_pending c = true)
  \/ (length (speechCalls st') = length (speechCalls st)
      /\ length (sources st') = S (length (sources st))
      /\ playbackState st' = PLAYING
      /\ activeSourceRef st' = Some (length (sources st))).
Proof.
  assert (Hout : forall st0, length (speechCalls st0) = length (speechCalls st) ->
            length (sources st0) = length (sources st) -> outcome st0 st' ->
    (length (speechCalls st') = length (speechCalls st)
     /\ length (sources st') = length (sources st))
    \/ (length (speechCalls st') = S (length (speechCalls st))
        /\ length (sources st') = length (sources st)
        /\ playbackState st' = LOADING_AUDIO
        /\ exists c, last (speechCalls st') = Some c /\ c_pending c = true)
    \/ (length (speechCalls st') = length (speechCalls st)
        /\ length (sources st') = S (length (sources st))
        /\ playbackState st' = PLAYING
        /\ activeSourceRef st' = Some (length (sources st)))).
  { intros st0 Hc Hs [(H1 & H2 & _)|[(c & H1 & Hp & H2 & H3 & _)|(H1 & H2 & H3 & H4)]].
    - left. rewrite H1, H2. auto.
    - right. left. rewrite H1, H2, length_app. cbn.
      split; [lia|]. split; [assumption|]. split; [assumption|].
      exists c. rewrite last_snoc. auto.
    - right. right. rewrite H1, H2, H4, Hs. auto. }
  assert (Hsame : forall x, Some x = Some st' ->
            speechCalls x = speechCalls st -> length (sources x) = length (sources st) ->
    (length (speechCalls st') = length (speechCalls st)
     /\ length (sources st') = length (sources st))
    \/ (length (speechCalls st') = S (length (speechCalls st))
        /\ length (sources st') = length (sources st)
        /\ playbackState st' = LOADING_AUDIO
        /\ exists c, last (speechCalls st') = Some c /\ c_pending c = true)
    \/ (length (speechCalls st') = length (speechCalls st)
        /\ length (sources st') = S (length (sources st))
        /\ playbackState st' = PLAYING
        /\ activeSourceRef st' = Some (length (sources st))))
    by (intros x [= <-] -> ->; left; auto).
  destruct ev; cbn [step]; intros Hstep.
  - apply (Hsame _ Hstep); reflexivity.
  - apply (Hsame _ Hstep); apply handleProcess_keeps.
  - apply (Hsame _ Hstep); unfold analysisSettled; destruct (analysesPending st);
      try destruct result; reflexivity.
  - apply (Hsame _ Hstep); apply handleClear_keeps.
  - unfold handlePlayPause in Hstep. destruct (decide _).
    + apply (Hsame _ Hstep); auto using stopPlayback_calls, stopPlayback_length.
    + apply (Hout st); [reflexivity | reflexivity |]. eapply playSegment_settles; exact Hstep.
  - unfold handlePlayAll in Hstep. destruct (segments st).
    + apply (Hsame _ Hstep); reflexivity.
    + apply (Hout st); [reflexivity | reflexivity |]. eapply playSegment_settles; exact Hstep.
  - apply (Hsame _ Hstep); auto using stopPlayback_calls, stopPlayback_length.
  - apply (Hsame _ Hstep); apply selectVoice_keeps.
  - unfold speechSettled in Hstep.
    destruct (speechCalls st !! call) as [c|]; [|apply (Hsame _ Hstep); reflexivity].
    destruct (c_pending c); [|apply (Hsame _ Hstep); reflexivity].
    destruct (generateSpeechResult audioData) as [pcm|].
    + apply startPlaying_outcome in Hstep; [|apply playSegment_settles].
      eapply Hout; [| |exact Hstep]; cbn; [apply length_insert | reflexivity].
    + injection Hstep as <-. left. cbn. rewrite length_insert. auto.
  - unfold sourceEnded in Hstep.
    destruct (sources st !! handle) as [n|]; [|apply (Hsame _ Hstep); reflexivity].
    destruct (status n); try (apply (Hsame _ Hstep); reflexivity);
      (destruct (onended n) as [cb|];
       [apply runOnEnded_outcome in Hstep; [|apply playSegment_settles];
        eapply Hout; [| |exact Hstep]; cbn; [reflexivity | apply length_insert]
       |injection Hstep as <-; left; cbn; rewrite length_insert; auto]).
Qed.

Lemma step_one_call_or_one_source_witness :
  length (sources (stateAfter (stoppedWhileLoading ++ [SpeechSettled 0 (Some pcmKnown)])))
    = S (length (sources (stateAfter stoppedWhileLoading)))
  \/ length (sources (stateAfter (stoppedWhileLoading ++ [SpeechSettled 0 (Some pcmKnown)])))
     = length (sources (stateAfter stoppedWhileLoading)).
Proof.
  destruct (step_one_call_or_one_source 4 (SpeechSettled 0 (Some pcmKnown))
              (stateAfter stoppedWhileLoading)
              (stateAfter (stoppedWhileLoading ++ [SpeechSettled 0 (Some pcmKnown)])))
    as [[_ H]|[(_ & H & _)|(_ & H & _)]].
  - vm_compute. reflexivity.
  - right. exact H.
  - right. exact H.
  - left. exact H.
Defined.

(** ** Invariants of the session *)

Lemma outcome_loadingInv (st st' : State) : outcome st st' -> loadingInv st'.
Proof.
  intros [(_ & _ & H & _)|[(c & H1 & Hp & _ & _ & Hid)|(_ & _ & H & _)]] Hl;
    try congruence.
  split; [rewrite Hid; eexists; reflexivity|].
  exists c. rewrite H1, last_snoc. auto.
Qed.

Lemma loadingInv_frame (st st' : State) :
  playbackState st' = playbackState st -> playingSegmentId st' = playingSegmentId st ->
  speechCalls st' = speechCalls st -> loadingInv st -> loadingInv st'.
Proof. unfold loadingInv. intros -> -> ->. auto. Qed.

Lemma loadingInv_idle (st : State) : playbackState st = IDLE -> loadingInv st.
Proof. intros H Hl. congruence. Qed.

Lemma step_loadingInv fuel ev st st' :
  loadingInv st -> step fuel ev st = Some st' -> loadingInv st'.
Proof.
  intros Hinv. destruct ev; cbn [step]; intros Hstep.
  - injection Hstep as <-. eapply loadingInv_frame; [| | |exact Hinv]; reflexivity.
  - injection Hstep as <-. unfold handleProcess. destruct (trimIsEmpty _); [assumption|].
    apply loadingInv_idle. reflexivity.
  - injection Hstep as <-. unfold analysisSettled. destruct (analysesPending st); [assumption|].
    destruct result; (eapply loadingInv_frame; [| | |exact Hinv]; reflexivity).
  - injection Hstep as <-. apply loadingInv_idle. reflexivity.
  - unfold handlePlayPause in Hstep. destruct (decide _).
    + injection Hstep as <-. apply loadingInv_idle. reflexivity.
    + eapply outcome_loadingInv, playSegment_settles, Hstep.
  - unfold handlePlayAll in Hstep. destruct (segments st).
    + injection Hstep as <-. assumption.
    + eapply outcome_loadingInv, playSegment_settles, Hstep.
  - injection Hstep as <-. apply loadingInv_idle. reflexivity.
  - injection Hstep as <-. unfold selectVoice. destruct (decide _); [assumption|].
    apply loadingInv_idle. reflexivity.
  - unfold speechSettled in Hstep.
    destruct (speechCalls st !! call) as [c|]; [|injection Hstep as <-; assumption].
    destruct (c_pending c); [|injection Hstep as <-; assumption].
    destruct (generateSpeechResult audioData) as [pcm|].
    + eapply outcome_loadingInv, startPlaying_outcome, Hstep. apply playSegment_settles.
    + injection Hstep as <-. apply loadingInv_idle. reflexivity.
  - unfold sourceEnded in Hstep.
    destruct (sources st !! handle) as [n|]; [|injection Hstep as <-; assumption].
    destruct (status n); try (injection Hstep as <-; assumption);
      (destruct (onended n) as [cb|];
       [eapply outcome_loadingInv, runOnEnded_outcome, Hstep; apply playSegment_settles
       |injection Hstep as <-; eapply loadingInv_frame; [| | |exact Hinv]; reflexivity]).
Qed.

(** X7.  In every reachable state with phase LoadingAudio, a segment is
    active and the newest synthesis call is still in flight: the loading
    indicator is never shown without a request it is waiting for. *)
Theorem loading_has_pending_call (st : State) :
  reachable st -> playbackState st = LOADING_AUDIO ->
  is_Some (playingSegmentId st)
  /\ exists c, last (speechCalls st) = Some c /\ c_pending c = true.
Proof.
  intros Hreach. change (loadingInv st).
  induction Hreach as [|fuel ev st st' _ IH Hstep].
  - apply loadingInv_idle. reflexivity.
  - eapply step_loadingInv; eassumption.
Qed.

Lemma loading_has_pending_call_witness :
  is_Some (playingSegmentId (stateAfter loadingOverPlaying))
  /\ exists c, last (speechCalls (stateAfter loadingOverPlaying)) = Some c /\ c_pending c = true.
Proof.
  apply (loading_has_pending_call (stateAfter loadingOverPlaying)).
  - apply stateAfter_reachable.
  - vm_compute. reflexivity.
Defined.

Lemma outcome_calls (st st' : State) :
  outcome st st' ->
  speechCalls st' = speechCalls st \/ exists c, speechCalls st' = speechCalls st ++ [c].
Proof.
  intros [(H & _)|[(c & H & _)|(H & _)]]; [left | right; exists c | left]; exact H.
Qed.

Lemma cacheInv_grow (st st' : State) :
  audioCache st' = audioCache st ->
  (speechCalls st' = speechCalls st \/ exists c, speechCalls st' = speechCalls st ++ [c]) ->
  cacheInv st -> cacheInv st'.
Proof.
  intros Hc Hcalls Hinv key pcm. rewrite Hc. intros Hk.
  destruct (Hinv key pcm Hk) as (Hne & k & c & Hl & Hp & Hid).
  split; [exact Hne|]. exists k, c. split; [|auto].
  destruct Hcalls as [->|[c0 ->]]; [exact Hl | apply lookup_app_l_Some; exact Hl].
Qed.

Lemma cacheInv_empty (st : State) : audioCache st = ∅ -> cacheInv st.
Proof. intros H key pcm. rewrite H, lookup_empty. discriminate. Qed.

Lemma cacheInv_settled (st : State) (k : nat) (c : SpeechCall) :
  speechCalls st !! k = Some c -> c_pending c = true -> cacheInv st ->
  cacheInv (setSpeechCalls
              (<[k := mkCall (c_text c) (c_voiceName c) (c_resume c) false]> (speechCalls st)) st).
Proof.
  intros Hk Hp Hinv key pcm Hkey. cbn in Hkey.
  destruct (Hinv key pcm Hkey) as (Hne & k0 & c0 & Hl & Hp0 & Hid).
  split; [exact Hne|]. exists k0, c0. split; [|auto]. cbn.
  rewrite list_lookup_insert_ne; [exact Hl|]. intros ->. congruence.
Qed.

Lemma step_cacheInv fuel ev st st' :
  cacheInv st -> step fuel ev st = Some st' -> cacheInv st'.
Proof.
  intros Hinv. destruct ev; cbn [step]; intros Hstep.
  - injection Hstep as <-. eapply cacheInv_grow; [| |exact Hinv]; [reflexivity | left; reflexivity].
  - injection Hstep as <-. unfold handleProcess. destruct (trimIsEmpty _); [assumption|].
    apply cacheInv_empty. reflexivity.
  - injection Hstep as <-. unfold analysisSettled. destruct (analysesPending st); [assumption|].
    destruct result;
      (eapply cacheInv_grow; [| |exact Hinv]; [reflexivity | left; reflexivity]).
  - injection Hstep as <-. apply cacheInv_empty. reflexivity.
  - unfold handlePlayPause in Hstep. destruct (decide _).
    + injection Hstep as <-.
      eapply cacheInv_grow; [apply stopPlayback_cache | left; apply stopPlayback_calls | exact Hinv].
    + eapply cacheInv_grow; [| |exact Hinv].
      * apply playSegment_cache in Hstep as [H _]. exact H.
      * eapply outcome_calls, playSegment_settles, Hstep.
  - unfold handlePlayAll in Hstep. destruct (segments st).
    + injection Hstep as <-. assumption.
    + eapply cacheInv_grow; [| |exact Hinv].
      * apply playSegment_cache in Hstep as [H _]. exact H.
      * eapply outcome_calls, playSegment_settles, Hstep.
  - injection Hstep as <-.
    eapply cacheInv_grow; [apply stopPlayback_cache | left; apply stopPlayback_calls | exact Hinv].
  - injection Hstep as <-. unfold selectVoice. destruct (decide _); [assumption|].
    apply cacheInv_empty. rewrite stopPlayback_cache. reflexivity.
  - unfold speechSettled in Hstep.
    destruct (speechCalls st !! call) as [c|] eqn:Hk; [|injection Hstep as <-; assumption].
    destruct (c_pending c) eqn:Hp; [|injection Hstep as <-; assumption].
    pose proof (cacheInv_settled st call c Hk Hp Hinv) as Hinv1.
    destruct (generateSpeechResult audioData) as [pcm|] eqn:Hr.
    + assert (Hne : pcm <> "").
      { unfold generateSpeechResult in Hr. destruct audioData as [d|]; [|discriminate].
        destruct (decide (d = "")); congruence. }
      match type of Hstep with startPlaying _ _ _ ?x = _ => assert (Hinv2 : cacheInv x) end.
      { intros key p. cbn. intros Hkey.
        destruct (decide (TextSegment.id (cb_segment (c_resume c)) = key)) as [<-|Hne'].
        - rewrite lookup_insert_eq in Hkey. injection Hkey as <-. split; [exact Hne|].
          exists call, (mkCall (c_text c) (c_voiceName c) (c_resume c) false).
          split; [|split; reflexivity].
          apply list_lookup_insert_eq. eapply lookup_lt_Some; exact Hk.
        - rewrite lookup_insert_ne in Hkey by assumption. apply (Hinv1 key p). exact Hkey. }
      eapply cacheInv_grow; [| |exact Hinv2].
      * apply startPlaying_cache in Hstep as [H _]; [exact H | apply playSegment_cache].
      * eapply outcome_calls, startPlaying_outcome, Hstep. apply playSegment_settles.
    + injection Hstep as <-.
      eapply cacheInv_grow; [| |exact Hinv1]; [reflexivity | left; reflexivity].
  - unfold sourceEnded in Hstep.
    destruct (sources st !! handle) as [n|]; [|injection Hstep as <-; assumption].
    assert (Hmark : forall a,
      cacheInv (setActiveSourceRef a
                  (setSources (<[handle := mkSource (buffer n) (onended n) Ended]> (sources st)) st)))
      by (intros a; eapply cacheInv_grow; [| |exact Hinv]; [reflexivity | left; reflexivity]).
    destruct (status n); try (injection Hstep as <-; assumption);
      (destruct (onended n) as [cb|];
       [eapply cacheInv_grow; [| |exact (Hmark None)];
        [apply runOnEnded_cache in Hstep as [H _]; [exact H | apply playSegment_cache]
        |eapply outcome_calls, runOnEnded_outcome, Hstep; apply playSegment_settles]
       |injection Hstep as <-;
        eapply cacheInv_grow; [| |exact Hinv]; [reflexivity | left; reflexivity]]).
Qed.

(** X8.  In every reachable state each entry of the audio cache is a
    non-empty payload, so the lookup [audioCache[id]] followed by the
    test [!pcmBase64] finds it, and it was stored for a synthesis call
    that has settled and was made for a segment with that id. *)
Theorem cache_entries_come_from_synthesis (st : State) (key pcm : string) :
  reachable st -> audioCache st !! key = Some pcm ->
  pcm <> ""
  /\ cached (audioCache st) key = Some pcm
  /\ exists k c, speechCalls st !! k = Some c /\ c_pending c = false
                 /\ TextSegment.id (cb_segment (c_resume c)) = key.
Proof.
  intros Hreach Hkey.
  assert (Hinv : cacheInv st).
  { clear Hkey. induction Hreach as [|fuel ev st st' _ IH Hstep].
    - apply cacheInv_empty. reflexivity.
    - eapply step_cacheInv; eassumption. }
  destruct (Hinv key pcm Hkey) as [Hne Hcall].
  split; [exact Hne|]. split; [|exact Hcall].
  unfold cached. rewrite Hkey. rewrite decide_False by assumption. reflexivity.
Qed.

Lemma cache_entries_come_from_synthesis_witness :
  pcmKnown <> ""
  /\ cached (audioCache (stateAfter playedDuringChain)) "seg-2" = Some pcmKnown
  /\ exists k c, speechCalls (stateAfter playedDuringChain) !! k = Some c /\ c_pending c = false
                 /\ TextSegment.id (cb_segment (c_resume c)) = "seg-2".
Proof.
  apply (cache_entries_come_from_synthesis (stateAfter playedDuringChain) "seg-2" pcmKnown).
  - apply stateAfter_reachable.
  - vm_compute. reflexivity.
Defined.

(** X9.  A source is used once: over any task every node stays in the
    store under its handle with the same buffer, a node that was stopped
    or has ended is never rendering again, one that has ended stays
    ended, and no node is removed. *)
Theorem sources_never_restart (fuel : nat) (ev : Event) (st st' : State) (h : nat)
    (n : SourceNode) :
  step fuel ev st = Some st' -> sources st !! h = Some n ->
  (length (sources st) <= length (sources st'))%nat
  /\ exists n', sources st' !! h = Some n'
       /\ buffer n' = buffer n
       /\ (status n' = Started -> n' = n)
       /\ (status n = Ended -> status n' = Ended).
Proof.
  intros Hstep Hn.
  assert (Hev : forall m m', evolves m m' ->
            buffer m' = buffer m /\ (status m' = Started -> m' = m)
            /\ (status m = Ended -> status m' = Ended)).
  { intros m m' [->| ->]; [auto|]. unfold stopNode; cbn.
    split; [reflexivity|]. split; [destruct (status m); discriminate|]. intros ->. reflexivity. }
  assert (Htr : forall st0, tracks st0 st' ->
            length (sources st0) = length (sources st) ->
            (forall m, sources st0 !! h = Some m ->
               buffer m = buffer n /\ (status m = Started -> m = n)
               /\ (status n = Ended -> status m = Ended)) ->
            is_Some (sources st0 !! h) ->
            (length (sources st) <= length (sources st'))%nat
            /\ exists n', sources st' !! h = Some n'
                 /\ buffer n' = buffer n
                 /\ (status n' = Started -> n' = n)
                 /\ (status n = Ended -> status n' = Ended)).
  { intros st0 [Hnodes Hshape] Hlen Hm [m Hm0]. split; [destruct Hshape as [?|[? _]]; lia|].
    destruct (Hnodes h m Hm0) as (n' & Hn' & He). exists n'. split; [exact Hn'|].
    destruct (Hev m n' He) as (Hb & Hs & Hd). destruct (Hm m Hm0) as (Hb0 & Hs0 & Hd0).
    split; [congruence|]. split.
    - intros Hst. pose proof (Hs Hst) as Heq. subst n'. apply Hs0. exact Hst.
    - auto. }
  assert (Hsame : forall m, sources st !! h = Some m ->
            buffer m = buffer n /\ (status m = Started -> m = n)
            /\ (status n = Ended -> status m = Ended))
    by (intros m Hm; assert (m = n) by congruence; subst; auto).
  destruct ev; try (apply (Htr st); [eapply step_tracks; [|exact Hstep]; discriminate
                                    | reflexivity | exact Hsame | eexists; exact Hn]).
  cbn [step] in Hstep. unfold sourceEnded in Hstep.
  destruct (sources st !! handle) as [n0|] eqn:Hn0;
    [|injection Hstep as <-; apply (Htr st);
      [apply tracks_frame; reflexivity | reflexivity | exact Hsame | eexists; exact Hn]].
  assert (Hended : status n0 <> Ended -> forall st1,
            sources st1 = <[handle := mkSource (buffer n0) (onended n0) Ended]> (sources st) ->
            tracks st1 st' ->
            (length (sources st) <= length (sources st'))%nat
            /\ exists n', sources st' !! h = Some n'
                 /\ buffer n' = buffer n
                 /\ (status n' = Started -> n' = n)
                 /\ (status n = Ended -> status n' = Ended)).
  { intros Hne st1 Hs1 Ht. apply (Htr st1 Ht).
    - rewrite Hs1. apply length_insert.
    - intros m. rewrite Hs1. destruct (decide (handle = h)) as [->|Hh].
      + rewrite list_lookup_insert_eq by (eapply lookup_lt_Some; exact Hn).
        intros [= <-]. cbn. assert (n0 = n) by congruence. subst n0.
        split; [reflexivity|]. split; [discriminate | auto].
      + rewrite list_lookup_insert_ne by assumption. apply Hsame.
    - rewrite Hs1. apply lookup_lt_is_Some. rewrite length_insert.
      eapply lookup_lt_Some; exact Hn. }
  destruct (status n0) eqn:Hs0.
  - destruct (onended n0) as [cb|].
    + apply runOnEnded_tracks in Hstep; [|apply playSegment_follows].
      eapply Hended; [discriminate | | exact Hstep]; reflexivity.
    + injection Hstep as <-.
      eapply Hended; [discriminate | | apply tracks_frame; reflexivity]; reflexivity.
  - destruct (onended n0) as [cb|].
    + apply runOnEnded_tracks in Hstep; [|apply playSegment_follows].
      eapply Hended; [discriminate | | exact Hstep]; reflexivity.
    + injection Hstep as <-.
      eapply Hended; [discriminate | | apply tracks_frame; reflexivity]; reflexivity.
  - injection Hstep as <-. apply (Htr st);
      [apply tracks_frame; reflexivity | reflexivity | exact Hsame | eexists; exact Hn].
Qed.

Lemma sources_never_restart_witness :
  exists n',
    sources (stateAfter (loadingOverPlaying ++ [SpeechSettled 1 (Some pcmSilence)])) !! 0%nat
      = Some n'
    /\ (status n' = Started ->
        n' = mkSource [0 # 32768; 16384 # 32768; -16384 # 32768; 32767 # 32768]%Q
               (Some (mkOnEnded (mkRender [seg1; seg2] ∅ "Kore") seg1 false)) Started).
Proof.
  destruct (sources_never_restart 4 (SpeechSettled 1 (Some pcmSilence))
              (stateAfter loadingOverPlaying)
              (stateAfter (loadingOverPlaying ++ [SpeechSettled 1 (Some pcmSilence)])) 0
              (mkSource [0 # 32768; 16384 # 32768; -16384 # 32768; 32767 # 32768]%Q
                 (Some (mkOnEnded (mkRender [seg1; seg2] ∅ "Kore") seg1 false)) Started))
    as [_ (n' & Hn' & _ & Hs & _)].
  - vm_compute. reflexivity.
  - vm_compute. reflexivity.
  - exists n'. split; [exact Hn' | exact Hs].
Defined.

(** ** Termination of a run of skipped segments *)

Lemma runOnEnded_extends rec rec' cb st st' :
  extends rec rec' -> runOnEnded rec cb st = Some st' -> runOnEnded rec' cb st = Some st'.
Proof.
  intros Hext. unfold runOnEnded, playNextSegment.
  destruct (cb_autoPlayNext cb); [|auto].
  destruct (findIndex _ _) as [i|]; [|auto].
  destruct (r_segments (cb_render cb) !! S i) as [next|]; [apply Hext | auto].
Qed.

Lemma startPlaying_extends rec rec' cb pcm st st' :
  extends rec rec' -> startPlaying rec cb pcm st = Some st' ->
  startPlaying rec' cb pcm st = Some st'.
Proof.
  intros Hext. unfold startPlaying, playPcmData.
  destruct (Decoder.decodePcm pcm); [auto|]. apply runOnEnded_extends. exact Hext.
Qed.

Lemma playSegment_more_fuel fuel : extends (playSegment fuel) (playSegment (S fuel)).
Proof.
  induction fuel as [|fuel IH]; intros r s a st st'; [discriminate|].
  intros H. cbn [playSegment] in H |- *.
  destruct (cached _ _) as [pcm|]; [|exact H].
  eapply startPlaying_extends; [exact IH | exact H].
Qed.

Lemma playSegment_returns (r : Render) :
  NoDup (TextSegment.id <$> r_segments r) ->
  forall n i s a st,
    r_segments r !! i = Some s -> (length (r_segments r) - i <= n)%nat ->
    is_Some (playSegment n r s a st).
Proof.
  intros Hnd. induction n as [|n IH]; intros i s a st Hi Hn.
  - apply lookup_lt_Some in Hi. lia.
  - cbn [playSegment]. destruct (cached _ _) as [pcm|]; [|eexists; reflexivity].
    unfold startPlaying, playPcmData.
    destruct (Decoder.decodePcm pcm); [eexists; reflexivity|].
    destruct a.
    + rewrite (runOnEnded_chain _ _ _ _ _ Hnd Hi).
      destruct (r_segments r !! S i) as [next|] eqn:Hnext; [|eexists; reflexivity].
      apply (IH (S i)); [exact Hnext | lia].
    + eexists. reflexivity.
Qed.

Lemma playSegment_returns_any (r : Render) (s : TextSegment.t) (a : bool) (st : State) :
  NoDup (TextSegment.id <$> r_segments r) ->
  is_Some (playSegment (S (length (r_segments r))) r s a st).
Proof.
  intros Hnd. cbn [playSegment]. destruct (cached _ _) as [pcm|]; [|eexists; reflexivity].
  unfold startPlaying, playPcmData.
  destruct (Decoder.decodePcm pcm); [eexists; reflexivity|].
  unfold runOnEnded, playNextSegment. cbn [cb_autoPlayNext cb_render cb_segment].
  destruct a; [|eexists; reflexivity].
  destruct (findIndex _ _) as [i|]; [|eexists; reflexivity].
  destruct (r_segments r !! S i) as [next|] eqn:Hnext; [|eexists; reflexivity].
  apply (playSegment_returns r Hnd _ (S i)); [exact Hnext | lia].
Qed.

(** X10.  With unique segment ids a play request of the user always
    completes, however many cached payloads fail to decode in a row: as
    many nested calls of [playSegment] as the list has segments, plus
    one, are enough for a click on a card and for Read All.  More calls
    than needed never change the result of a task. *)
Theorem user_play_terminates (st : State) (segment : TextSegment.t) :
  NoDup (TextSegment.id <$> segments st) ->
  is_Some (step (S (length (segments st))) (ClickPlayPause segment) st)
  /\ is_Some (step (S (length (segments st))) ClickPlayAll st)
  /\ (forall fuel ev st', step fuel ev st = Some st' -> step (S fuel) ev st = Some st').
Proof.
  intros Hnd. split; [|split].
  - cbn [step]. unfold handlePlayPause. destruct (decide _); [eexists; reflexivity|].
    apply (playSegment_returns_any (render st)). exact Hnd.
  - cbn [step]. unfold handlePlayAll. destruct (segments st) as [|first rest] eqn:E;
      [eexists; reflexivity|].
    rewrite <- E. apply (playSegment_returns_any (render st)).
    cbn [render r_segments]. rewrite E. exact Hnd.
  - intros fuel ev st'. destruct ev; cbn [step]; try (intros H; exact H).
    + unfold handlePlayPause. destruct (decide _); [auto | apply playSegment_more_fuel].
    + unfold handlePlayAll. destruct (segments st); [auto | apply playSegment_more_fuel].
    + unfold speechSettled. destruct (speechCalls st !! call) as [c|]; [|auto].
      destruct (c_pending c); [|auto].
      destruct (generateSpeechResult audioData); [|auto].
      apply startPlaying_extends, playSegment_more_fuel.
    + unfold sourceEnded. destruct (sources st !! handle) as [n|]; [|auto].
      destruct (status n); auto;
        (destruct (onended n); [apply runOnEnded_extends, playSegment_more_fuel | auto]).
Qed.

Lemma user_play_terminates_witness :
  is_Some (step (S (length (segments (stateAfter chainWithBadPayload)))) ClickPlayAll
             (stateAfter chainWithBadPayload)).
Proof.
  destruct (user_play_terminates (stateAfter chainWithBadPayload) seg1) as (_ & H & _).
  - apply (bool_decide_unpack _). vm_compute. exact I.
  - exact H.
Defined.

(** X11.  When the segment that follows the first segment with some id
    carries the same id, and the cached payload of that id fails to
    decode, a chain that reaches the id never returns: each failed
    decode calls [playSegment] on the same following segment again, for
    any number of nested calls. *)
Theorem repeated_id_chain_never_returns
    (r : Render) (s s' : TextSegment.t) (pcm : string) (i : nat) :
  cached (r_audioCache r) (TextSegment.id s) = Some pcm ->
  Decoder.decodePcm pcm = None ->
  findIndex (TextSegment.id s) (r_segments r) = Some i ->
  r_segments r !! S i = Some s' ->
  TextSegment.id s' = TextSegment.id s ->
  forall fuel st, playSegment fuel r s true st = None.
Proof.
  intros Hc Hdec Hfind Hnext Hid.
  assert (H : forall fuel x st, TextSegment.id x = TextSegment.id s ->
                playSegment fuel r x true st = None).
  { induction fuel as [|fuel IH]; intros x st Hx; [reflexivity|].
    cbn [playSegment]. rewrite Hx, Hc. rewrite startPlaying_failed by assumption.
    unfold runOnEnded, playNextSegment. cbn [cb_autoPlayNext cb_render cb_segment].
    rewrite Hx, Hfind, Hnext. apply IH. exact Hid. }
  intros fuel st. apply H. reflexivity.
Qed.

Lemma repeated_id_chain_never_returns_witness :
  playSegment 100 repeatedIdRender seg1 true initialState = None.
Proof.
  apply (repeated_id_chain_never_returns repeatedIdRender seg1 seg1' pcmOdd 0).
  - vm_compute. reflexivity.
  - vm_compute. reflexivity.
  - reflexivity.
  - reflexivity.
  - reflexivity.
Defined.

(** X5.  A non-empty payload that cannot be decoded is cached like any
    other when it arrives, and it is never fetched again.  The task in
    which it arrives stores it under the id of its segment, whatever
    else it goes on to do, and that task completes: at once outside
    chain mode, and with unique ids in chain mode too.  From then on,
    as long as the entry is in the cache, a click on a segment with
    that id makes no synthesis call, creates no source, leaves the
    cache as it is and ends Idle with no active segment. *)
Theorem undecodable_payload_not_refetched
    (fuel k : nat) (st : State) (c : SpeechCall) (pcm : string) :
  speechCalls st !! k = Some c -> c_pending c = true ->
  pcm <> "" -> Decoder.decodePcm pcm = None ->
  let key := TextSegment.id (cb_segment (c_resume c)) in
  let r := cb_render (c_resume c) in
  (forall st1,
      step fuel (SpeechSettled k (Some pcm)) st = Some st1 ->
      audioCache st1 = <[key := pcm]> (audioCache st)
      /\ cached (audioCache st1) key = Some pcm)
  /\ (cb_autoPlayNext (c_resume c) = false ->
      is_Some (step fuel (SpeechSettled k (Some pcm)) st))
  /\ (NoDup (TextSegment.id <$> r_segments r) ->
      is_Some (step (S (length (r_segments r))) (SpeechSettled k (Some pcm)) st))
  /\ (forall (segment : TextSegment.t) (st2 : State),
        TextSegment.id segment = key ->
        audioCache st2 !! key = Some pcm ->
        exists st',
          step (S fuel) (ClickPlayPause segment) st2 = Some st'
          /\ playbackState st' = IDLE
          /\ playingSegmentId st' = None
          /\ speechCalls st' = speechCalls st2
          /\ length (sources st') = length (sources st2)
          /\ audioCache st' = audioCache st2).
Proof.
  intros Hk Hp Hne Hdec key r.
  assert (Hstep : forall f, exists arrived,
            step f (SpeechSettled k (Some pcm)) st =
              runOnEnded (playSegment f) (c_resume c) arrived).
  { intros f. eexists. cbn [step]. unfold speechSettled. rewrite Hk, Hp.
    cbn [generateSpeechResult]. rewrite decide_False by assumption.
    apply startPlaying_failed. assumption. }
  split; [|split; [|split]].
  - intros st1 H1. cbn [step] in H1. unfold speechSettled in H1. rewrite Hk, Hp in H1.
    cbn [generateSpeechResult] in H1. rewrite decide_False in H1 by assumption.
    apply startPlaying_cache in H1 as [H _]; [|apply playSegment_cache].
    rewrite H. cbn [audioCache setAudioCache setSpeechCalls]. split; [reflexivity|].
    unfold cached. fold key. rewrite lookup_insert_eq.
    rewrite decide_False by assumption. reflexivity.
  - intros Ha. destruct (Hstep fuel) as [arrived ->]. unfold runOnEnded. rewrite Ha.
    eexists. reflexivity.
  - intros Hnd. destruct (Hstep (S (length (r_segments r)))) as [arrived ->].
    unfold runOnEnded, playNextSegment. fold r.
    destruct (cb_autoPlayNext (c_resume c)); [|eexists; reflexivity].
    destruct (findIndex _ _) as [i|]; [|eexists; reflexivity].
    destruct (r_segments r !! S i) as [next|]; [|eexists; reflexivity].
    apply playSegment_returns_any. exact Hnd.
  - intros segment st2 Hid Hown.
    assert (Hc : cached (audioCache st2) (TextSegment.id segment) = Some pcm).
    { unfold cached. rewrite Hid, Hown. rewrite decide_False by assumption. reflexivity. }
    cbn [step]. unfold handlePlayPause. destruct (decide _).
    + eexists. split; [reflexivity|]. split; [reflexivity|]. split; [reflexivity|].
      split; [apply stopPlayback_calls|]. split; [apply stopPlayback_length|].
      apply stopPlayback_cache.
    + cbn [playSegment render r_audioCache]. rewrite Hc.
      rewrite startPlaying_failed by assumption. unfold runOnEnded. cbn [cb_autoPlayNext].
      eexists. split; [reflexivity|]. split; [reflexivity|]. split; [reflexivity|].
      match goal with |- context [stopActive ?x] =>
        destruct (stopActive_fields x) as (_ & _ & Hca & Hcalls & _);
        pose proof (stopActive_length x) as Hlen end.
      cbn. split; [exact Hcalls|]. split; [exact Hlen | exact Hca].
Qed.

Lemma undecodable_payload_not_refetched_witness :
  exists st1 st',
    step 4 (SpeechSettled 0 (Some pcmOdd)) (stateAfter (analysed ++ [ClickPlayPause seg1]))
      = Some st1
    /\ cached (audioCache st1) "seg-1" = Some pcmOdd
    /\ step 4 (ClickPlayPause seg1) st1 = Some st'
    /\ playbackState st' = IDLE
    /\ speechCalls st' = speechCalls st1
    /\ length (sources st') = length (sources st1).
Proof.
  destruct (undecodable_payload_not_refetched 3 0 (stateAfter (analysed ++ [ClickPlayPause seg1]))
              (mkCall "Reading is essential." "Kore"
                 (mkOnEnded (mkRender [seg1; seg2] ∅ "Kore") seg1 false) true) pcmOdd)
    as (_ & _ & _ & Hclick).
  - vm_compute. reflexivity.
  - reflexivity.
  - discriminate.
  - vm_compute. reflexivity.
  - destruct (undecodable_payload_not_refetched 4 0
                (stateAfter (analysed ++ [ClickPlayPause seg1]))
                (mkCall "Reading is essential." "Kore"
                   (mkOnEnded (mkRender [seg1; seg2] ∅ "Kore") seg1 false) true) pcmOdd)
      as (Harr & Hret & _ & _).
    + vm_compute. reflexivity.
    + reflexivity.
    + discriminate.
    + vm_compute. reflexivity.
    + destruct (Hret eq_refl) as [st1 H1]. destruct (Harr st1 H1) as [Hca Hc].
      destruct (Hclick seg1 st1 eq_refl) as (st' & Hs & Hp & _ & Hcalls & Hlen & _).
      * rewrite Hca. apply lookup_insert_eq.
      * exists st1, st'. repeat split; assumption.
Defined.

(** ** New analysis and Clear *)

Lemma stopPlayback_quiet (st : State) : engineInv st -> quiet (stopPlayback st).
Proof.
  intros Hinv. destruct (stopActive_quiet st Hinv) as [Hq _].
  assert (Hsrc : sources (stopPlayback st) = sources (stopActive st))
    by (unfold stopPlayback, stopActive; destruct (activeSourceRef st); reflexivity).
  intros h n. rewrite Hsrc. apply Hq.
Qed.

Lemma stopPlayback_handle (st : State) : activeSourceRef (stopPlayback st) = None.
Proof.
  unfold stopPlayback. destruct (activeSourceRef st) eqn:E; cbn; [reflexivity | exact E].
Qed.

(** ** The blank test on texts *)

Lemma sextet (n : N) : (n = 64 * (n / 64) + n mod 64 /\ n mod 64 < 64)%N.
Proof. split; [apply N.Div0.div_mod | apply N.mod_lt; discriminate]. Qed.

Lemma utf8_shifts (cp : N) :
  (cp / 4096 = cp / 64 / 64 /\ cp / 262144 = cp / 64 / 64 / 64)%N.
Proof. rewrite !N.Div0.div_div. split; reflexivity. Qed.

(** Name the six-bit groups of [cp], with the equations that relate
    them, so that [lia] sees linear facts only. *)
Ltac name_sextets cp :=
  destruct (utf8_shifts cp) as [-> ->];
  destruct (sextet cp) as [? ?]; destruct (sextet (cp / 64)) as [? ?];
  destruct (sextet (cp / 64 / 64)) as [? ?];
  let E := fresh in
  remember (cp / 64 / 64 / 64)%N as q3 eqn:E; clear E;
  remember ((cp / 64 / 64) mod 64)%N as r2 eqn:E; clear E;
  remember (cp / 64 / 64)%N as q2 eqn:E; clear E;
  remember ((cp / 64) mod 64)%N as r1 eqn:E; clear E;
  remember (cp / 64)%N as q1 eqn:E; clear E;
  remember (cp mod 64)%N as r0 eqn:E; clear E.

Ltac decide_tests :=
  repeat match goal with
         | |- context [N.ltb ?a ?b] => destruct (N.ltb_spec a b); try lia
         | |- context [N.leb ?a ?b] => destruct (N.leb_spec a b); try lia
         end.

(** [codePoints] reads back what [utf8] writes, one code point at a
    time. *)
Lemma codePoints_utf8 (cp : N) (rest : list N) :
  (cp < 0x110000)%N -> codePoints (utf8 cp ++ rest) = cp :: codePoints rest.
Proof.
  intros Hcp. unfold utf8. name_sextets cp.
  destruct (N.ltb_spec cp 0x80).
  { cbn [app codePoints]. decide_tests. reflexivity. }
  destruct (N.ltb_spec cp 0x800).
  { cbn [app codePoints]. unfold isContinuation.
    repeat (progress (decide_tests; cbn [andb])); f_equal; lia. }
  destruct (N.ltb_spec cp 0x10000).
  { cbn [app codePoints]. unfold isContinuation.
    repeat (progress (decide_tests; cbn [andb])); f_equal; lia. }
  cbn [app codePoints]. unfold isContinuation.
  repeat (progress (decide_tests; cbn [andb])); f_equal; lia.
Qed.

Lemma utf8_bytes (cp : N) : (cp < 0x110000)%N -> Forall (fun b => (b < 256)%N) (utf8 cp).
Proof.
  intros Hcp. unfold utf8. name_sextets cp.
  repeat match goal with |- context [N.ltb ?a ?b] => destruct (N.ltb_spec a b) end;
    repeat (apply Forall_cons; split; [lia|]); apply Forall_nil; exact I.
Qed.

Lemma codePoints_text (cps : list N) :
  Forall (fun cp => (cp < 0x110000)%N) cps ->
  codePoints (N_of_ascii <$> list_ascii_of_string (text cps)) = cps.
Proof.
  intros Hall. unfold text. rewrite list_ascii_of_string_of_list_ascii.
  induction Hall as [|cp cps Hcp _ IH]; [reflexivity|].
  cbn [fmap list_fmap concat]. rewrite !fmap_app.
  assert (Hb : N_of_ascii <$> (ascii_of_N <$> utf8 cp) = utf8 cp).
  { pose proof (utf8_bytes cp Hcp) as Hbytes.
    induction Hbytes as [|b l Hlt _ IHl]; [reflexivity|].
    cbn [fmap list_fmap]. rewrite N_ascii_embedding by exact Hlt. f_equal. exact IHl. }
  rewrite Hb, codePoints_utf8 by exact Hcp. f_equal. exact IH.
Qed.

(** On the text made of any code points, the blank test of
    [handleProcess] holds exactly when every one of them is white space
    or a line terminator, which is when [String.prototype.trim] leaves
    the empty string. *)
Lemma trimIsEmpty_text (cps : list N) :
  Forall (fun cp => (cp < 0x110000)%N) cps ->
  trimIsEmpty (text cps) = forallb isWhiteSpace cps.
Proof.
  intros Hall. unfold trimIsEmpty. rewrite codePoints_text by exact Hall. reflexivity.
Qed.

Example trimIsEmpty_white_space :
  trimIsEmpty (text [0x9; 0xA; 0xB; 0xC; 0xD; 0x20; 0xA0; 0x1680; 0x2000; 0x200A; 0x2028;
                     0x2029; 0x202F; 0x205F; 0x3000; 0xFEFF]%N) = true
  /\ trimIsEmpty (text [0xA0; 0x61]%N) = false
  /\ trimIsEmpty (text [0x85]%N) = false
  /\ trimIsEmpty (text [0x200B]%N) = false
  /\ trimIsEmpty "" = true.
Proof. repeat split; vm_compute; reflexivity. Qed.

(** X12.  Start Analysis on a text that is blank after trimming (empty,
    or white space and line terminators only) changes nothing.
    Otherwise it stops playback at once (no source is rendering, no
    handle, phase Idle, no active segment), empties the segment list
    and the cache, and leaves synthesis calls in flight untouched; when
    this analysis, the only one in flight, settles, the list is the
    analysed one on success and stays empty on failure (the earlier
    list is not restored), and the processing flag is cleared either
    way. *)
Theorem handleProcess_resets (fuel : nat) (st : State)
    (result : option (list TextSegment.t)) :
  reachable st ->
  (trimIsEmpty (inputText st) = true -> step fuel ClickProcess st = Some st)
  /\ (trimIsEmpty (inputText st) = false ->
      exists st1,
        step fuel ClickProcess st = Some st1
        /\ segments st1 = [] /\ audioCache st1 = ∅ /\ isProcessing st1 = true
        /\ playbackState st1 = IDLE /\ playingSegmentId st1 = None
        /\ activeSourceRef st1 = None /\ quiet st1
        /\ speechCalls st1 = speechCalls st
        /\ (analysesPending st = 0%nat ->
            exists st2,
              step fuel (AnalysisSettled result) st1 = Some st2
              /\ segments st2 = match result with Some segs => segs | None => [] end
              /\ isProcessing st2 = false
              /\ analysesPending st2 = 0%nat
              /\ audioCache st2 = ∅)).
Proof.
  intros Hreach. destruct (reachable_inv st Hreach) as [Heng _].
  cbn [step]. unfold handleProcess. split.
  - intros ->. reflexivity.
  - intros ->. eexists. split; [reflexivity|].
    cbn [segments audioCache isProcessing playbackState playingSegmentId activeSourceRef
           speechCalls setAnalysesPending setAudioCache setSegments setIsProcessing].
    split; [reflexivity|]. split; [reflexivity|]. split; [reflexivity|].
    split; [reflexivity|]. split; [reflexivity|].
    split; [apply stopPlayback_handle|].
    split; [intros h n; cbn; apply (stopPlayback_quiet st Heng)|].
    split; [apply stopPlayback_calls|].
    intros Hz. unfold analysisSettled. cbn [analysesPending setAnalysesPending].
    eexists. split; [reflexivity|]. destruct result; cbn; auto.
Qed.

Lemma handleProcess_resets_witness :
  (exists st1,
     step 4 ClickProcess
       (stateAfter (loadingOverPlaying ++ [SetInputText "Time is money."])) = Some st1
     /\ segments st1 = [] /\ audioCache st1 = ∅ /\ quiet st1)
  /\ step 4 ClickProcess
       (stateAfter (loadingOverPlaying ++ [SetInputText (text [0x20; 0xA0; 0x2028; 0xFEFF]%N)]))
     = Some (stateAfter (loadingOverPlaying ++ [SetInputText (text [0x20; 0xA0; 0x2028; 0xFEFF]%N)])).
Proof.
  split.
  - destruct (handleProcess_resets 4
                (stateAfter (loadingOverPlaying ++ [SetInputText "Time is money."])) None
                (stateAfter_reachable _)) as [_ H].
    destruct H as (st1 & Hstep & Hs & Hc & _ & _ & _ & _ & Hq & _).
    + vm_compute. reflexivity.
    + exists st1. auto.
  - destruct (handleProcess_resets 4
                (stateAfter (loadingOverPlaying
                               ++ [SetInputText (text [0x20; 0xA0; 0x2028; 0xFEFF]%N)])) None
                (stateAfter_reachable _)) as [H _].
    apply H. vm_compute. reflexivity.
Defined.

(** X13.  Clear stops playback at once and empties the text, the
    segment list and the cache, but it does not cancel an analysis in
    flight: the processing flag and the count of analyses stay as they
    were, and when the analysis resolves its segments fill the list
    again although the text box is empty. *)
Theorem handleClear_resets (fuel : nat) (st : State) :
  reachable st ->
  exists st1,
    step fuel ClickClear st = Some st1
    /\ inputText st1 = "" /\ segments st1 = [] /\ audioCache st1 = ∅
    /\ playbackState st1 = IDLE /\ playingSegmentId st1 = None
    /\ activeSourceRef st1 = None /\ quiet st1
    /\ isProcessing st1 = isProcessing st
    /\ analysesPending st1 = analysesPending st
    /\ (forall segs, analysesPending st <> 0%nat ->
          exists st2,
            step fuel (AnalysisSettled (Some segs)) st1 = Some st2
            /\ segments st2 = segs /\ inputText st2 = "").
Proof.
  intros Hreach. destruct (reachable_inv st Hreach) as [Heng _].
  cbn [step]. unfold handleClear. eexists. split; [reflexivity|].
  cbn [inputText segments audioCache isProcessing playbackState playingSegmentId activeSourceRef
         analysesPending setAudioCache setSegments setInputText].
  split; [reflexivity|]. split; [reflexivity|]. split; [reflexivity|].
  split; [reflexivity|]. split; [reflexivity|].
  split; [apply stopPlayback_handle|].
  split; [intros h n; cbn; apply (stopPlayback_quiet st Heng)|].
  split; [destruct st as [? ? ? ? ? ? ? [a|] ? ? ?]; reflexivity|].
  assert (Hpend : analysesPending (stopPlayback st) = analysesPending st)
    by (destruct st as [? ? ? ? ? ? ? [a|] ? ? ?]; reflexivity).
  split; [exact Hpend|].
  intros segs Hne. unfold analysisSettled.
  cbn [analysesPending setAudioCache setSegments setInputText]. rewrite Hpend.
  destruct (analysesPending st) as [|p]; [congruence|].
  eexists. split; [reflexivity|]. split; reflexivity.
Qed.

Lemma handleClear_resets_witness :
  exists st1,
    step 4 ClickClear (stateAfter loadingOverPlaying) = Some st1
    /\ inputText st1 = "" /\ segments st1 = [] /\ quiet st1.
Proof.
  destruct (handleClear_resets 4 (stateAfter loadingOverPlaying) (stateAfter_reachable _))
    as (st1 & Hstep & Ht & Hs & _ & _ & _ & _ & Hq & _).
  exists st1. auto.
Defined.

(** ** Runs through the page *)

Lemma stopActive_form (st : State) :
  isProcessing (stopActive st) = isProcessing st
  /\ analysesPending (stopActive st) = analysesPending st.
Proof. unfold stopActive. destruct (activeSourceRef st); split; reflexivity. Qed.

Lemma stopPlayback_form (st : State) :
  isProcessing (stopPlayback st) = isProcessing st
  /\ analysesPending (stopPlayback st) = analysesPending st.
Proof. destruct st as [? ? ? ? ? ? ? [a|] ? ? ?]; split; reflexivity. Qed.

Lemma runOnEnded_form rec cb st st' :
  keepsForm rec -> runOnEnded rec cb st = Some st' ->
  isProcessing st' = isProcessing st /\ analysesPending st' = analysesPending st.
Proof.
  intros Hrec. unfold runOnEnded, playNextSegment.
  destruct (cb_autoPlayNext cb).
  - destruct (findIndex _ _) as [i|].
    + destruct (r_segments (cb_render cb) !! S i) as [next|].
      * apply Hrec.
      * intros [= <-]. split; reflexivity.
    + intros [= <-]. split; reflexivity.
  - intros [= <-]. split; reflexivity.
Qed.

Lemma startPlaying_form rec cb pcm st st' :
  keepsForm rec -> startPlaying rec cb pcm st = Some st' ->
  isProcessing st' = isProcessing st /\ analysesPending st' = analysesPending st.
Proof.
  intros Hrec. unfold startPlaying, playPcmData.
  destruct (stopActive_form (setPlaybackState PLAYING st)) as [H1 H2].
  destruct (Decoder.decodePcm pcm) as [buf|].
  - intros [= <-]. cbn. rewrite H1, H2. split; reflexivity.
  - intros H. apply (runOnEnded_form _ _ _ _ Hrec) in H as [H3 H4].
    rewrite H3, H4, H1, H2. split; reflexivity.
Qed.

Lemma playSegment_form fuel : keepsForm (playSegment fuel).
Proof.
  induction fuel as [|fuel IH]; intros r s a st st'; cbn [playSegment]; [discriminate|].
  destruct (cached _ _) as [pcm|].
  - intros H. apply (startPlaying_form _ _ _ _ _ IH) in H. exact H.
  - intros [= <-]. split; reflexivity.
Qed.

Lemma step_form fuel ev st st' :
  step fuel ev st = Some st' ->
  ev <> ClickProcess -> (forall result, ev <> AnalysisSettled result) ->
  isProcessing st' = isProcessing st /\ analysesPending st' = analysesPending st.
Proof.
  intros Hstep Hp Ha. destruct ev; cbn [step] in Hstep; try congruence.
  - injection Hstep as <-. split; reflexivity.
  - injection Hstep as <-. unfold handleClear. apply stopPlayback_form.
  - unfold handlePlayPause in Hstep. destruct (decide _).
    + injection Hstep as <-. apply stopPlayback_form.
    + eapply playSegment_form. exact Hstep.
  - unfold handlePlayAll in Hstep. destruct (segments st).
    + injection Hstep as <-. split; reflexivity.
    + eapply playSegment_form. exact Hstep.
  - injection Hstep as <-. apply stopPlayback_form.
  - injection Hstep as <-. unfold selectVoice. destruct (decide _); [split; reflexivity|].
    apply (stopPlayback_form (setAudioCache ∅ (setSelectedVoice voice st))).
  - unfold speechSettled in Hstep.
    destruct (speechCalls st !! call) as [c|]; [|injection Hstep as <-; split; reflexivity].
    destruct (c_pending c); [|injection Hstep as <-; split; reflexivity].
    destruct (generateSpeechResult audioData) as [pcm|].
    + apply startPlaying_form in Hstep; [exact Hstep | apply playSegment_form].
    + injection Hstep as <-. split; reflexivity.
  - unfold sourceEnded in Hstep.
    destruct (sources st !! handle) as [n|]; [|injection Hstep as <-; split; reflexivity].
    destruct (status n); try (injection Hstep as <-; split; reflexivity);
      (destruct (onended n) as [cb|];
       [apply runOnEnded_form in Hstep; [exact Hstep | apply playSegment_form]
       |injection Hstep as <-; split; reflexivity]).
Qed.

(** X14.  In every state reached through the page at most one analysis
    is in flight, and the processing flag is set exactly while it is:
    Start Analysis is disabled while processing, and the [finally] of
    [handleProcess] clears the flag when the analysis settles. *)
Theorem one_analysis_in_flight (st : State) :
  pageReachable st ->
  (analysesPending st <= 1)%nat
  /\ (isProcessing st = true <-> analysesPending st = 1%nat).
Proof.
  intros Hreach.
  assert (Hinv : analysesPending st = if isProcessing st then 1%nat else 0%nat).
  { induction Hreach as [|fuel ev st st' _ IH Hoff Hstep]; [reflexivity|].
    destruct ev;
      try (destruct (step_form _ _ _ _ Hstep) as [-> ->];
           [discriminate | discriminate | exact IH]).
    - cbn [offered] in Hoff. cbn [step] in Hstep. injection Hstep as <-. unfold handleProcess.
      destruct (isProcessing st) eqn:Hproc; [discriminate|].
      destruct (trimIsEmpty (inputText st)); [discriminate|].
      cbn [analysesPending isProcessing setAnalysesPending setAudioCache setSegments
             setIsProcessing].
      rewrite IH. reflexivity.
    - cbn [step] in Hstep. injection Hstep as <-. unfold analysisSettled.
      destruct (analysesPending st) as [|p] eqn:Hpend; [rewrite Hpend; exact IH|].
      destruct (isProcessing st); [|discriminate]. injection IH as ->.
      destruct result; reflexivity. }
  rewrite Hinv. destruct (isProcessing st); split; try lia; split; congruence.
Qed.

Lemma one_analysis_in_flight_witness :
  (analysesPending (stateAfter [SetInputText "Time is money."; ClickProcess]) <= 1)%nat
  /\ (isProcessing (stateAfter [SetInputText "Time is money."; ClickProcess]) = true
      <-> analysesPending (stateAfter [SetInputText "Time is money."; ClickProcess]) = 1%nat).
Proof.
  apply (one_analysis_in_flight (stateAfter [SetInputText "Time is money."; ClickProcess])).
  eapply (pageReachable_step 4 ClickProcess (stateAfter [SetInputText "Time is money."]));
    [|vm_compute; reflexivity | vm_compute; reflexivity].
  eapply (pageReachable_step 4 (SetInputText "Time is money.") initialState);
    [apply pageReachable_init | reflexivity | vm_compute; reflexivity].
Defined.

Lemma voicesInv_frame (st st' : State) :
  selectedVoice st' = selectedVoice st -> speechCalls st' = speechCalls st ->
  sources st' = sources st -> voicesInv st -> voicesInv st'.
Proof. unfold voicesInv. intros -> -> ->. auto. Qed.

Lemma voicesInv_stopActive (st : State) : voicesInv st -> voicesInv (stopActive st).
Proof.
  intros (Hv & Hc & Hs). destruct (stopActive_fields st) as (_ & _ & _ & Ec & _ & _ & Ev).
  split; [rewrite Ev; exact Hv|]. split; [rewrite Ec; exact Hc|].
  intros h n cb. rewrite stopActive_lookup. destruct (decide _).
  - intros Hn. apply fmap_Some in Hn as (m & _ & ->). discriminate.
  - apply Hs.
Qed.

Lemma voicesInv_stopPlayback (st : State) : voicesInv st -> voicesInv (stopPlayback st).
Proof.
  intros H. apply voicesInv_stopActive in H.
  eapply voicesInv_frame; [| | |exact H];
    unfold stopPlayback, stopActive; destruct (activeSourceRef st); reflexivity.
Qed.

Lemma runOnEnded_voiced rec cb st st' :
  voiced rec -> r_selectedVoice (cb_render cb) ∈ VOICES -> voicesInv st ->
  runOnEnded rec cb st = Some st' -> voicesInv st'.
Proof.
  intros Hrec Hcb Hinv. unfold runOnEnded, playNextSegment.
  assert (Hidle : voicesInv (toIdle st))
    by (eapply voicesInv_frame; [| | |exact Hinv]; reflexivity).
  destruct (cb_autoPlayNext cb).
  - destruct (findIndex _ _) as [i|].
    + destruct (r_segments (cb_render cb) !! S i) as [next|].
      * apply Hrec; assumption.
      * intros [= <-]. exact Hidle.
    + intros [= <-]. exact Hidle.
  - intros [= <-]. exact Hidle.
Qed.

Lemma startPlaying_voiced rec cb pcm st st' :
  voiced rec -> r_selectedVoice (cb_render cb) ∈ VOICES -> voicesInv st ->
  startPlaying rec cb pcm st = Some st' -> voicesInv st'.
Proof.
  intros Hrec Hcb Hinv. unfold startPlaying, playPcmData.
  assert (H0 : voicesInv (stopActive (setPlaybackState PLAYING st))).
  { apply voicesInv_stopActive. eapply voicesInv_frame; [| | |exact Hinv]; reflexivity. }
  destruct (Decoder.decodePcm pcm) as [buf|].
  - intros [= <-]. destruct H0 as (Hv & Hc & Hs). split; [exact Hv|]. split; [exact Hc|].
    intros h n cb0. cbn. intros Hn Hon.
    apply lookup_app_Some in Hn as [Hn|[_ Hn]]; [eapply Hs; eassumption|].
    apply list_lookup_singleton_Some in Hn as [_ <-]. cbn in Hon. injection Hon as <-.
    exact Hcb.
  - apply runOnEnded_voiced; assumption.
Qed.

Lemma playSegment_voiced fuel : voiced (playSegment fuel).
Proof.
  induction fuel as [|fuel IH]; intros r s a st st' Hr Hinv; cbn [playSegment]; [discriminate|].
  destruct (cached _ _) as [pcm|].
  - apply (startPlaying_voiced _ _ _ _ _ IH); [exact Hr|].
    eapply voicesInv_frame; [| | |exact Hinv]; reflexivity.
  - intros [= <-]. destruct Hinv as (Hv & Hc & Hs). split; [exact Hv|]. split; [|exact Hs].
    intros k c. cbn. intros Hk.
    apply lookup_app_Some in Hk as [Hk|[_ Hk]]; [apply (Hc k c Hk)|].
    apply list_lookup_singleton_Some in Hk as [_ <-]. cbn. auto.
Qed.

Lemma step_voicesInv fuel ev st st' :
  voicesInv st -> offered st ev = true -> step fuel ev st = Some st' -> voicesInv st'.
Proof.
  intros Hinv Hoff. pose proof Hinv as (Hv & Hc & Hs).
  destruct ev; cbn [step]; intros Hstep.
  - injection Hstep as <-. eapply voicesInv_frame; [| | |exact Hinv]; reflexivity.
  - injection Hstep as <-. unfold handleProcess. destruct (trimIsEmpty _); [assumption|].
    eapply voicesInv_frame; [| | |exact (voicesInv_stopPlayback st Hinv)]; reflexivity.
  - injection Hstep as <-. unfold analysisSettled. destruct (analysesPending st); [assumption|].
    destruct result; (eapply voicesInv_frame; [| | |exact Hinv]; reflexivity).
  - injection Hstep as <-.
    eapply voicesInv_frame; [| | |exact (voicesInv_stopPlayback st Hinv)]; reflexivity.
  - unfold handlePlayPause in Hstep. destruct (decide _).
    + injection Hstep as <-. apply voicesInv_stopPlayback. exact Hinv.
    + eapply playSegment_voiced; [|exact Hinv | exact Hstep]. exact Hv.
  - unfold handlePlayAll in Hstep. destruct (segments st).
    + injection Hstep as <-. assumption.
    + eapply playSegment_voiced; [|exact Hinv | exact Hstep]. exact Hv.
  - injection Hstep as <-. apply voicesInv_stopPlayback. exact Hinv.
  - injection Hstep as <-. unfold selectVoice. destruct (decide _); [assumption|].
    apply voicesInv_stopPlayback. cbn [offered] in Hoff. apply bool_decide_eq_true_1 in Hoff.
    split; [exact Hoff|]. split; [exact Hc | exact Hs].
  - unfold speechSettled in Hstep.
    destruct (speechCalls st !! call) as [c|] eqn:Hk; [|injection Hstep as <-; assumption].
    destruct (c_pending c); [|injection Hstep as <-; assumption].
    destruct (Hc call c Hk) as [Hcv Hcr].
    assert (Hinv1 : forall cache,
      voicesInv (setAudioCache cache
        (setSpeechCalls
           (<[call := mkCall (c_text c) (c_voiceName c) (c_resume c) false]> (speechCalls st)) st))).
    { intros cache. split; [exact Hv|]. split; [|exact Hs]. intros k c0. cbn. intros Hk0.
      apply list_lookup_insert_Some in Hk0 as [(_ & <- & _)|[_ Hk0]]; [cbn; auto|].
      apply (Hc k c0 Hk0). }
    destruct (generateSpeechResult audioData) as [pcm|].
    + eapply startPlaying_voiced; [apply playSegment_voiced | | apply Hinv1 | exact Hstep].
      exact Hcr.
    + injection Hstep as <-.
      eapply voicesInv_frame; [| | |exact (Hinv1 (audioCache st))]; reflexivity.
  - unfold sourceEnded in Hstep.
    destruct (sources st !! handle) as [n|] eqn:Hn; [|injection Hstep as <-; assumption].
    assert (Hinv1 : forall a,
      voicesInv (setActiveSourceRef a
        (setSources (<[handle := mkSource (buffer n) (onended n) Ended]> (sources st)) st))).
    { intros a. split; [exact Hv|]. split; [exact Hc|]. intros h m cb. cbn. intros Hm Hon.
      apply list_lookup_insert_Some in Hm as [(_ & <- & _)|[_ Hm]].
      - cbn in Hon. eapply Hs; eassumption.
      - eapply Hs; eassumption. }
    destruct (status n); try (injection Hstep as <-; assumption);
      (destruct (onended n) as [cb|] eqn:Hon;
       [eapply runOnEnded_voiced; [apply playSegment_voiced | | apply (Hinv1 None) | exact Hstep];
        eapply Hs; eassumption
       |injection Hstep as <-;
        eapply voicesInv_frame; [| | |exact (Hinv1 (activeSourceRef st))]; reflexivity]).
Qed.

Lemma pageReachable_reachable (st : State) : pageReachable st -> reachable st.
Proof.
  induction 1 as [|fuel ev st st' _ IH _ Hstep]; [apply reachable_init|].
  eapply reachable_step; eassumption.
Qed.

Lemma pageRun_reachable fuel evs st st' :
  pageReachable st -> pageRun fuel evs st = Some st' -> pageReachable st'.
Proof.
  revert st. induction evs as [|ev evs IH]; intros st Hst; cbn [pageRun].
  - intros [= <-]. assumption.
  - destruct (offered st ev) eqn:Hoff; [|discriminate].
    destruct (step fuel ev st) as [st1|] eqn:E; cbn; [|discriminate].
    apply IH. eapply pageReachable_step; eassumption.
Qed.

(** X15.  In every state reached through the page the selected voice is
    one of the five the selector offers, whether or not a synthesis call
    has been made, and so is the voice of every synthesis call ever
    made, also of calls made by a chain that goes on from an earlier
    render. *)
Theorem synthesis_voice_is_offered (st : State) :
  pageReachable st ->
  selectedVoice st ∈ VOICES
  /\ forall (k : nat) (c : SpeechCall), speechCalls st !! k = Some c -> c_voiceName c ∈ VOICES.
Proof.
  intros Hreach.
  assert (Hinv : voicesInv st).
  { induction Hreach as [|fuel ev st st' _ IH Hoff Hstep].
    - split; [apply (bool_decide_unpack _); vm_compute; exact I|].
      split; intros ? ? ; cbn; intros; discriminate.
    - eapply step_voicesInv; eassumption. }
  destruct Hinv as (Hv & Hc & _). split; [exact Hv|].
  intros k c Hk. apply (Hc k c Hk).
Qed.

Lemma synthesis_voice_is_offered_witness :
  selectedVoice (stateAfter (analysed ++ [SelectVoice "Puck"])) ∈ VOICES
  /\ speechCalls (stateAfter (analysed ++ [SelectVoice "Puck"])) = []
  /\ selectedVoice (stateAfter (analysed ++ [SelectVoice "Puck"; ClickPlayPause seg1])) ∈ VOICES
  /\ forall (k : nat) (c : SpeechCall),
       speechCalls (stateAfter (analysed ++ [SelectVoice "Puck"; ClickPlayPause seg1])) !! k
         = Some c ->
       c_voiceName c ∈ VOICES.
Proof.
  split; [|split].
  - apply (synthesis_voice_is_offered (stateAfter (analysed ++ [SelectVoice "Puck"]))).
    apply (pageRun_reachable 4 (analysed ++ [SelectVoice "Puck"]) initialState);
      [apply pageReachable_init | vm_compute; reflexivity].
  - vm_compute. reflexivity.
  - apply (synthesis_voice_is_offered
             (stateAfter (analysed ++ [SelectVoice "Puck"; ClickPlayPause seg1]))).
    apply (pageRun_reachable 4 (analysed ++ [SelectVoice "Puck"; ClickPlayPause seg1])
             initialState); [apply pageReachable_init | vm_compute; reflexivity].
Defined.

(** The runs used above for the claims go through the page. *)
Lemma claim_runs_are_offered :
  pageRun 4 (stoppedWhileLoading ++ [SpeechSettled 0 (Some pcmKnown)]) initialState
    = Some (stateAfter (stoppedWhileLoading ++ [SpeechSettled 0 (Some pcmKnown)]))
  /\ pageRun 4 chainWithBadPayload initialState = Some (stateAfter chainWithBadPayload)
  /\ pageRun 4 endsWhileLoading initialState = Some (stateAfter endsWhileLoading)
  /\ pageRun 4 (playedDuringChain ++ [SourceEnded 1]) initialState
     = Some (stateAfter (playedDuringChain ++ [SourceEnded 1]))
  /\ pageRun 4 (voiceChangedInFlight ++ [ClickPlayPause seg1]) initialState
     = Some (stateAfter (voiceChangedInFlight ++ [ClickPlayPause seg1]))
  /\ pageRun 4 (voiceChangedDuringChain ++ [SourceEnded 1]) initialState
     = Some (stateAfter (voiceChangedDuringChain ++ [SourceEnded 1]))
  /\ pageRun 4 (analysedInFlight ++ [ClickPlayPause seg1']) initialState
     = Some (stateAfter (analysedInFlight ++ [ClickPlayPause seg1'])).
Proof. repeat match goal with |- _ /\ _ => split end; vm_compute; reflexivity. Qed.
